(** * resp2mask: conversion of AFC responses into expected-response masks

    A shallow embedding of [src/harness/utils/resp2mask.py] and the
    properties of its range arithmetic, converters, merge loop and mask
    naming.

    Numbers.  The script mixes Python [int], [float] and [Decimal] values
    and compares them with each other; Python compares such values by
    their exact numeric value.  A number is therefore modelled by that
    value: an exact rational, or one of the two infinities.  The
    conversions [Decimal(str(x))] and [float(d)] keep the value of every
    number whose decimal form is short enough to round-trip through a
    binary double; they appear below as [to_Decimal] and [to_float] at the
    places where the script applies them, and are the identity on exact
    values.  Not-a-number is not part of the model. *)

From Stdlib Require Import QArith Qcanon Lqa Ascii String.
From stdpp Require Import base numbers list strings gmap.

Local Open Scope Qc_scope.

(** ** Python numbers *)

Inductive number : Type :=
  | NegInf
  | Fin (q : Qc)
  | PosInf.

Definition num_lt (a b : number) : Prop :=
  match a, b with
  | NegInf, NegInf => False
  | NegInf, _ => True
  | Fin x, Fin y => x < y
  | Fin _, PosInf => True
  | _, _ => False
  end.

Definition num_le (a b : number) : Prop :=
  match a, b with
  | NegInf, _ => True
  | Fin x, Fin y => x ≤ y
  | _, PosInf => True
  | _, _ => False
  end.

Global Instance num_eq_dec : EqDecision number.
Proof. solve_decision. Defined.

Global Instance num_lt_dec : RelDecision num_lt.
Proof. intros [| x |] [| y |]; simpl; apply _. Defined.

Global Instance num_le_dec : RelDecision num_le.
Proof. intros [| x |] [| y |]; simpl; apply _. Defined.

Definition is_finite (a : number) : Prop :=
  match a with Fin _ => True | _ => False end.

(** ** Exceptions *)

Inductive pyexc : Type :=
  | TypeError
  | AttributeError
  | IndexError
  | InvalidOperation.

Inductive result (A : Type) : Type :=
  | Ok (a : A)
  | Raise (e : pyexc).
Arguments Ok {A} a.
Arguments Raise {A} e.

Definition rbind {A B : Type} (m : result A) (f : A → result B) : result B :=
  match m with
  | Ok a => f a
  | Raise e => Raise e
  end.

Notation "x ←? m ; k" := (rbind m (λ x, k))
  (at level 20, m at level 100, k at level 200, right associativity,
   format "x  ←?  m ;  '/' k").

Fixpoint rmap {A B : Type} (f : A → result B) (l : list A) : result (list B) :=
  match l with
  | [] => Ok []
  | x :: l' => y ←? f x; ys ←? rmap f l'; Ok (y :: ys)
  end.

(** ** Decimal arithmetic and the built-ins used by the range expander *)

(** [Decimal(str(x))]. *)
Definition to_Decimal (x : number) : number := x.

(** [float(d)]. *)
Definition to_float (d : number) : number := d.

(** [a + b] on decimals; opposite infinities signal [InvalidOperation]. *)
Definition dec_add (a b : number) : result number :=
  match a, b with
  | Fin x, Fin y => Ok (Fin (x + y))
  | PosInf, NegInf | NegInf, PosInf => Raise InvalidOperation
  | PosInf, _ | _, PosInf => Ok PosInf
  | NegInf, _ | _, NegInf => Ok NegInf
  end.

(** [a - b] on decimals; equal infinities signal [InvalidOperation]. *)
Definition dec_sub (a b : number) : result number :=
  match a, b with
  | Fin x, Fin y => Ok (Fin (x - y))
  | PosInf, PosInf | NegInf, NegInf => Raise InvalidOperation
  | PosInf, _ | _, NegInf => Ok PosInf
  | NegInf, _ | _, PosInf => Ok NegInf
  end.

(** [min(a, b)]: the first argument unless the second is smaller. *)
Definition py_min (a b : number) : number :=
  if bool_decide (num_lt b a) then b else a.

(** [max(a, b)]: the first argument unless the second is larger. *)
Definition py_max (a b : number) : number :=
  if bool_decide (num_lt a b) then b else a.

(** [sorted(l)]: a stable sort that only asks [<]. *)
Fixpoint insert_sorted (x : number) (l : list number) : list number :=
  match l with
  | [] => [x]
  | y :: l' =>
      if bool_decide (num_lt x y) then x :: y :: l' else y :: insert_sorted x l'
  end.

Definition sorted (l : list number) : list number :=
  foldl (λ acc x, insert_sorted x acc) [] l.

(** [l[i]]. *)
Definition index {A : Type} (l : list A) (i : nat) : result A :=
  match l !! i with
  | Some x => Ok x
  | None => Raise IndexError
  end.

(** ** The range expander *)

(** Modelled from the spec: [expected_inquiry_response.ExpectedPowerRange]
    is declared outside this file; its constructor takes the upper
    bound, the nominal value and the lower bound, in this order. *)
Record ExpectedPowerRange : Type := mkExpectedPowerRange {
  upperBound : number;
  nominal : number;
  lowerBound : number;
}.

(** [d.get(key, dflt)] on a margins or limits dictionary. *)
Definition dict_get (d : gmap string number) (key : string) (dflt : number) : number :=
  default dflt (d !! key).

(** The entries of [def_margins] and [def_limits]. *)
Definition def_margin_upper : number := Fin 0.
Definition def_margin_lower : number := PosInf.
Definition def_limit_upper : number := PosInf.
Definition def_limit_lower : number := NegInf.

Definition margin_upper_of (margins : option (gmap string number)) : number :=
  match margins with
  | Some m => to_Decimal (dict_get m "upper" def_margin_upper)
  | None => def_margin_upper
  end.

Definition margin_lower_of (margins : option (gmap string number)) : number :=
  match margins with
  | Some m => to_Decimal (dict_get m "lower" def_margin_lower)
  | None => def_margin_lower
  end.

Definition limit_upper_of (limits : option (gmap string number)) : number :=
  match limits with
  | Some l => dict_get l "upper" def_limit_upper
  | None => def_limit_upper
  end.

Definition limit_lower_of (limits : option (gmap string number)) : number :=
  match limits with
  | Some l => dict_get l "lower" def_limit_lower
  | None => def_limit_lower
  end.

Definition exp_range_from (nominal_value : number)
    (margins limits : option (gmap string number)) : result ExpectedPowerRange :=
  let margin_upper := margin_upper_of margins in
  let margin_lower := margin_lower_of margins in
  let limit_upper := limit_upper_of limits in
  let limit_lower := limit_lower_of limits in
  mid ←? index (sorted [limit_lower; nominal_value; limit_upper]) 1;
  let nominal_value := to_Decimal mid in
  upper ←? dec_add nominal_value margin_upper;
  let upper_bound := to_float upper in
  lower ←? dec_sub nominal_value margin_lower;
  let lower_bound := to_float lower in
  Ok (mkExpectedPowerRange (py_min upper_bound limit_upper)
                           (to_float nominal_value)
                           (py_max lower_bound limit_lower)).


(** ** Keyword arguments and configuration values *)

(** The values a conversion modifier can take: what the TOML
    configuration holds (Booleans, numbers, strings and tables of
    numbers) and Python's [None]. *)
Inductive pyval : Type :=
  | PyNone
  | PyBool (b : bool)
  | PyNum (n : number)
  | PyStr (s : string)
  | PyDict (d : gmap string number).

(** Truth value of an object, as [if v] and [not v] take it. *)
Definition truthy (v : pyval) : bool :=
  match v with
  | PyNone => false
  | PyBool b => b
  | PyNum n => bool_decide (n ≠ Fin 0)
  | PyStr s => bool_decide (s ≠ "")
  | PyDict d => bool_decide (d ≠ ∅)
  end.

(** [v is False]. *)
Definition is_False (v : pyval) : bool :=
  match v with
  | PyBool false => true
  | _ => false
  end.

(** [kw.get(key, dflt)], also the binding of a keyword parameter that
    has a default. *)
Definition kw_get (kw : gmap string pyval) (key : string) (dflt : pyval) : pyval :=
  default dflt (kw !! key).

(** The keywords left for [**kwargs] once the named parameters are bound. *)
Definition kw_rest (names : list string) (kw : gmap string pyval) : gmap string pyval :=
  foldr delete kw names.

(** A call [f(arg, k1=v1, ..., **kwargs)]: a keyword given twice is a
    [TypeError]. *)
Definition kw_call (named : list (string * pyval)) (kwargs : gmap string pyval)
    : result (gmap string pyval) :=
  if bool_decide (Forall (λ kv, kwargs !! kv.1 = None) named)
  then Ok (foldr (λ kv m, <[kv.1 := kv.2]> m) kwargs named)
  else Raise TypeError.

(** A margins or limits argument: [None], or an object with [get]. *)
Definition as_dict (v : pyval) : result (option (gmap string number)) :=
  match v with
  | PyNone => Ok None
  | PyDict d => Ok (Some d)
  | _ => Raise AttributeError
  end.

(** The call [exp_range_from(nominal_value, **kw)]: the function has the
    keyword parameters [margins] and [limits], both [None] by default, and
    no [**kwargs] of its own. *)
Definition exp_range_from_kw (nominal_value : number) (kw : gmap string pyval)
    : result ExpectedPowerRange :=
  if bool_decide (kw_rest ["margins"; "limits"] kw = ∅) then
    margins ←? as_dict (kw_get kw "margins" PyNone);
    limits ←? as_dict (kw_get kw "limits" PyNone);
    exp_range_from nominal_value margins limits
  else Raise TypeError.

(** ** Responses and masks *)

(** Modelled from the spec: the response and mask classes live in
    [available_spectrum_inquiry_response], [expected_inquiry_response] and
    [interface_common], outside this file.  The records below have the
    attributes the converters read and the constructor arguments they
    pass, in the order they pass them. *)
Inductive ResponseCode : Type :=
  | SUCCESS
  | GENERAL_FAILURE
  | SpecificFailure (code : Z).

Global Instance ResponseCode_eq_dec : EqDecision ResponseCode.
Proof. solve_decision. Defined.

Record VendorExtension : Type := mkVendorExtension {
  extensionId : string;
  parameters : string;
}.

Record FrequencyRange : Type := mkFrequencyRange {
  lowFrequency : Z;
  highFrequency : Z;
}.

Record AvailableFrequencyInfo : Type := mkAvailableFrequencyInfo {
  frequencyRange : FrequencyRange;
  maxPsd : number;
}.

Record AvailableChannelInfo : Type := mkAvailableChannelInfo {
  globalOperatingClass : Z;
  channelCfi : list Z;
  maxEirp : list number;
}.

Record Response : Type := mkResponse {
  responseCode : ResponseCode;
  shortDescription : string;
}.

Record AvailableSpectrumInquiryResponse : Type :=
  mkAvailableSpectrumInquiryResponse {
  requestId : string;
  rulesetId : string;
  response : Response;
  availableFrequencyInfo : list AvailableFrequencyInfo;
  availableChannelInfo : list AvailableChannelInfo;
  vendorExtensions : option (list VendorExtension);
}.

Record AvailableSpectrumInquiryResponseMessage : Type :=
  mkAvailableSpectrumInquiryResponseMessage {
  version : string;
  availableSpectrumInquiryResponses : list AvailableSpectrumInquiryResponse;
  msg_vendorExtensions : option (list VendorExtension);
}.

Record ExpectedAvailableFrequencyInfo : Type := mkExpectedAvailableFrequencyInfo {
  exp_frequencyRange : FrequencyRange;
  exp_maxPsd : ExpectedPowerRange;
}.

Record ExpectedAvailableChannelInfo : Type := mkExpectedAvailableChannelInfo {
  exp_globalOperatingClass : Z;
  exp_channelCfi : list Z;
  exp_maxEirp : list ExpectedPowerRange;
}.

Record ExpectedSpectrumInquiryResponse : Type :=
  mkExpectedSpectrumInquiryResponse {
  exp_requestId : string;
  exp_rulesetId : string;
  expectedResponseCodes : list ResponseCode;
  expectedFrequencyInfo : list ExpectedAvailableFrequencyInfo;
  expectedChannelInfo : list ExpectedAvailableChannelInfo;
  exp_vendorExtensions : option (list VendorExtension);
  disallowedResponseCodes : option (list ResponseCode);
}.

Record ExpectedSpectrumInquiryResponseMessage : Type :=
  mkExpectedSpectrumInquiryResponseMessage {
  exp_version : string;
  expectedSpectrumInquiryResponses : list ExpectedSpectrumInquiryResponse;
  mask_vendorExtensions : option (list VendorExtension);
}.

(** ** Conversion functions *)

(** [exp_freq_info_from(avail_info, **kwargs)]. *)
Definition exp_freq_info_from (avail_info : AvailableFrequencyInfo)
    (kwargs : gmap string pyval) : result ExpectedAvailableFrequencyInfo :=
  range ←? exp_range_from_kw (maxPsd avail_info) kwargs;
  Ok (mkExpectedAvailableFrequencyInfo (frequencyRange avail_info) range).

(** [exp_chan_info_from(avail_info, **kwargs)]. *)
Definition exp_chan_info_from (avail_info : AvailableChannelInfo)
    (kwargs : gmap string pyval) : result ExpectedAvailableChannelInfo :=
  ranges ←? rmap (λ x, exp_range_from_kw x kwargs) (maxEirp avail_info);
  Ok (mkExpectedAvailableChannelInfo (globalOperatingClass avail_info)
                                     (channelCfi avail_info) ranges).

(** The named keyword parameters of [exp_resp_from]. *)
Definition exp_resp_from_params : list string :=
  ["expect_less_specific_error"; "permit_any_code"; "psd_margins";
   "eirp_margins"; "eirp_limits"; "psd_limits"; "exclude_extensions"].

(** The call [exp_resp_from(resp, **kw)]. *)
Definition exp_resp_from (resp : AvailableSpectrumInquiryResponse)
    (kw : gmap string pyval) : result ExpectedSpectrumInquiryResponse :=
  if bool_decide (is_Some (kw !! "resp")) then Raise TypeError else
  let expect_less_specific_error := kw_get kw "expect_less_specific_error" (PyBool true) in
  let permit_any_code := kw_get kw "permit_any_code" (PyBool false) in
  let psd_margins := kw_get kw "psd_margins" PyNone in
  let eirp_margins := kw_get kw "eirp_margins" PyNone in
  let eirp_limits := kw_get kw "eirp_limits" PyNone in
  let psd_limits := kw_get kw "psd_limits" PyNone in
  let exclude_extensions := kw_get kw "exclude_extensions" (PyBool true) in
  let kwargs := kw_rest exp_resp_from_params kw in
  let code := responseCode (response resp) in
  let allowed_codes :=
    if truthy expect_less_specific_error
       && bool_decide (code ∉ [SUCCESS; GENERAL_FAILURE])
    then [code] ++ [GENERAL_FAILURE] else [code] in
  let disallowed_codes := if truthy permit_any_code then Some [] else None in
  freq ←? rmap (λ x, kw' ←? kw_call [("margins", psd_margins); ("limits", psd_limits)] kwargs;
                     exp_freq_info_from x kw')
               (availableFrequencyInfo resp);
  chan ←? rmap (λ x, kw' ←? kw_call [("margins", eirp_margins); ("limits", eirp_limits)] kwargs;
                     exp_chan_info_from x kw')
               (availableChannelInfo resp);
  Ok (mkExpectedSpectrumInquiryResponse
        (requestId resp) (rulesetId resp) allowed_codes freq chan
        (if is_False exclude_extensions then vendorExtensions resp else None)
        disallowed_codes).

(** The call [exp_msg_from(msg, **kw)]. *)
Definition exp_msg_from (msg : AvailableSpectrumInquiryResponseMessage)
    (kw : gmap string pyval) : result ExpectedSpectrumInquiryResponseMessage :=
  if bool_decide (is_Some (kw !! "msg")) then Raise TypeError else
  let exclude_extensions := kw_get kw "exclude_extensions" (PyBool true) in
  let kwargs := kw_rest ["exclude_extensions"] kw in
  resps ←? rmap (λ x, kw' ←? kw_call [("exclude_extensions", exclude_extensions)] kwargs;
                      exp_resp_from x kw')
                (availableSpectrumInquiryResponses msg);
  Ok (mkExpectedSpectrumInquiryResponseMessage
        (version msg) resps
        (if is_False exclude_extensions then msg_vendorExtensions msg else None)).

(** The named parameters of [exp_resp_from], as the call binds them. *)
Definition expect_less_specific_error_of (kw : gmap string pyval) : pyval :=
  kw_get kw "expect_less_specific_error" (PyBool true).
Definition permit_any_code_of (kw : gmap string pyval) : pyval :=
  kw_get kw "permit_any_code" (PyBool false).
Definition exclude_extensions_of (kw : gmap string pyval) : pyval :=
  kw_get kw "exclude_extensions" (PyBool true).

(** The keywords that [exp_msg_from] hands to [exp_resp_from]. *)
Definition exp_msg_from_resp_kw (kw : gmap string pyval) : gmap string pyval :=
  <["exclude_extensions" := exclude_extensions_of kw]> (delete "exclude_extensions" kw).

(** The result of a call, when there is one. *)
Definition result_value {A : Type} (m : result A) : option A :=
  match m with
  | Ok a => Some a
  | Raise _ => None
  end.

(** *** When the converters return *)

(** A margins argument that can be read: [None] or a table. *)
Definition margins_usable (v : pyval) : Prop :=
  ∃ margins, as_dict v = Ok margins.

(** A limits argument that can be read and leaves room for a finite
    value: the lower limit is not plus infinity, the upper limit is not
    minus infinity. *)
Definition limits_usable (v : pyval) : Prop :=
  ∃ limits, as_dict v = Ok limits
            ∧ limit_lower_of limits ≠ PosInf ∧ limit_upper_of limits ≠ NegInf.

(** A configuration with recognised modifiers only, whose margins and
    limits are usable. *)
Definition cfg_usable (kw : gmap string pyval) : Prop :=
  kw_rest exp_resp_from_params kw = ∅
  ∧ margins_usable (kw_get kw "psd_margins" PyNone)
  ∧ limits_usable (kw_get kw "psd_limits" PyNone)
  ∧ margins_usable (kw_get kw "eirp_margins" PyNone)
  ∧ limits_usable (kw_get kw "eirp_limits" PyNone).

(** A response whose power values are all finite. *)
Definition resp_finite (resp : AvailableSpectrumInquiryResponse) : Prop :=
  Forall (λ x, is_finite (maxPsd x)) (availableFrequencyInfo resp)
  ∧ Forall (λ x, Forall is_finite (maxEirp x)) (availableChannelInfo resp).

(** ** Strings, paths and the request-identifier pattern *)

(** Strings are sequences of ASCII characters; [\d] and [[A-Z]] are read
    over these. *)
Definition is_upper (c : ascii) : bool :=
  (65 <=? nat_of_ascii c)%nat && (nat_of_ascii c <=? 90)%nat.

Definition is_digit (c : ascii) : bool :=
  (48 <=? nat_of_ascii c)%nat && (nat_of_ascii c <=? 57)%nat.

Fixpoint all_chars (p : ascii → bool) (s : string) : bool :=
  match s with
  | EmptyString => true
  | String c s' => p c && all_chars p s'
  end.

(** [re.fullmatch(r'REQ-([A-Z]{3})(\d+)', s)]: the two groups on a match. *)
Definition wfa_fullmatch (s : string) : option (string * string) :=
  match s with
  | String "R" (String "E" (String "Q" (String "-"
      (String a (String b (String c (String d digits)))))))%char =>
      if is_upper a && is_upper b && is_upper c
         && all_chars is_digit (String d digits)
      then Some (String a (String b (String c EmptyString)), String d digits)
      else None
  | _ => None
  end.

(** The identifier format in the spec's words: [REQ-], three upper-case
    letters, one or more digits. *)
Definition wfa_pattern (s letters digits : string) : Prop :=
  s = "REQ-" +:+ letters +:+ digits
  ∧ String.length letters = 3%nat
  ∧ all_chars is_upper letters = true
  ∧ digits ≠ EmptyString
  ∧ all_chars is_digit digits = true.

(** [s.split(sep)] for a one-character separator. *)
Fixpoint split_on (sep : ascii) (s : string) : list string :=
  match s with
  | EmptyString => [EmptyString]
  | String c s' =>
      if Ascii.eqb c sep then EmptyString :: split_on sep s'
      else match split_on sep s' with
           | x :: xs => String c x :: xs
           | [] => [String c EmptyString]
           end
  end.

(** [s.rfind(c)]. *)
Fixpoint rfind (c : ascii) (s : string) : option nat :=
  match s with
  | EmptyString => None
  | String a s' =>
      match rfind c s' with
      | Some i => Some (S i)
      | None => if Ascii.eqb a c then Some 0%nat else None
      end
  end.

(** [s.replace(old, new)] for one-character [old] and [new]. *)
Fixpoint replace_char (old new : ascii) (s : string) : string :=
  match s with
  | EmptyString => EmptyString
  | String c s' => String (if Ascii.eqb c old then new else c) (replace_char old new s')
  end.

(** [sep.join(l)]. *)
Fixpoint str_join (sep : string) (l : list string) : string :=
  match l with
  | [] => EmptyString
  | [x] => x
  | x :: l' => x +:+ sep +:+ str_join sep l'
  end.

(** [os.path.basename(p)]: what follows the last slash. *)
Definition basename (p : string) : string :=
  default EmptyString (last (split_on "/" p)).

(** [Path(p).name]: the last component, empty components and single dots
    being dropped. *)
Definition path_name (p : string) : string :=
  default EmptyString
    (last (filter (λ c, c ≠ EmptyString ∧ c ≠ ".") (split_on "/" p))).

(** [Path(p).stem]: the name without its last suffix. *)
Definition path_stem (p : string) : string :=
  let name := path_name p in
  match rfind "." name with
  | Some i =>
      if (0 <? i)%nat && (i <? String.length name - 1)%nat
      then substring 0 i name else name
  | None => name
  end.

(** ** The driver, one source argument at a time *)

(** What one round of the loop over the source arguments ends in, when
    every prompt is answered with yes. *)
Inductive outcome : Type :=
  | NoValidResponses
  | Uncaught (e : pyexc)
  | MaskWritten (mask_file_name : string)
                (mask_obj : ExpectedSpectrumInquiryResponseMessage).

(** [sub_mask.disallowedResponseCodes = None]. *)
Definition clear_disallowed (sub_mask : ExpectedSpectrumInquiryResponse)
    : ExpectedSpectrumInquiryResponse :=
  mkExpectedSpectrumInquiryResponse
    (exp_requestId sub_mask) (exp_rulesetId sub_mask)
    (expectedResponseCodes sub_mask) (expectedFrequencyInfo sub_mask)
    (expectedChannelInfo sub_mask) (exp_vendorExtensions sub_mask) None.

(** The merge loop over [mask_set[1:]].  Every mask of the set is an
    object of its own, built by [exp_msg_from] from a file read on its
    own, so extending the lists of [mask_obj] in place is read as
    building the extended lists. *)
Fixpoint main_merge (mask_obj : ExpectedSpectrumInquiryResponseMessage)
    (rest : list ExpectedSpectrumInquiryResponseMessage)
    : result ExpectedSpectrumInquiryResponseMessage :=
  match rest with
  | [] => Ok mask_obj
  | mask :: rest' =>
      if bool_decide (exp_version mask_obj ≠ exp_version mask)
      then (* message printed; [continue] resumes this loop *)
        main_merge mask_obj rest'
      else
        let responses :=
          expectedSpectrumInquiryResponses mask_obj
            ++ expectedSpectrumInquiryResponses mask in
        match mask_vendorExtensions mask_obj with
        | Some exts =>
            match mask_vendorExtensions mask with
            | Some more =>
                main_merge (mkExpectedSpectrumInquiryResponseMessage
                              (exp_version mask_obj) responses (Some (exts ++ more)))
                           rest'
            | None => (* [extend(None)] *) Raise TypeError
            end
        | None =>
            main_merge (mkExpectedSpectrumInquiryResponseMessage
                          (exp_version mask_obj) responses (mask_vendorExtensions mask))
                       rest'
        end
  end.

(** [src_gen_name]: from the directory's base name for a response set,
    from the file's stem for a single response file. *)
Definition main_src_gen_name (src_path : string) (is_dir : bool) : string :=
  if is_dir then basename src_path +:+ "_mask.json"
  else path_stem src_path +:+ "_mask.json".

(** The mask file name. *)
Definition main_mask_file_name (src_path src_gen_name : string)
    (mask_obj : ExpectedSpectrumInquiryResponseMessage) : result string :=
  first ←? index (expectedSpectrumInquiryResponses mask_obj) 0;
  match wfa_fullmatch (exp_requestId first) with
  | Some (letters, digits) =>
      if (1 <? length (expectedSpectrumInquiryResponses mask_obj))%nat
      then Ok ("AFCS." +:+ replace_char "_" "." (basename src_path) +:+ "_mask.json")
      else Ok (str_join "." (["AFCS"] ++ [letters; digits]) +:+ "_mask.json")
  | None => Ok src_gen_name
  end.

Section Driver.

(** [ResponseMaskValidator.validate_expected_spectrum_inquiry_response_message],
    an opaque predicate on masks. *)
Variable mask_valid : ExpectedSpectrumInquiryResponseMessage → bool.

(** One round of the loop over [src_files]: [None] when the file is
    skipped.  A file arrives as the response message parsed from it, or
    as [None] when it is not JSON or not a response message.  A response
    message that fails its own validation is converted all the same, with
    a warning. *)
Definition main_convert_file (mask2resp_cfg : gmap string pyval)
    (src_file : option AvailableSpectrumInquiryResponseMessage)
    : option ExpectedSpectrumInquiryResponseMessage :=
  match src_file with
  | None => None
  | Some resp_obj =>
      match exp_msg_from resp_obj mask2resp_cfg with
      | Raise _ => None
      | Ok mask_obj =>
          if mask_valid mask_obj then
            if negb (truthy (kw_get mask2resp_cfg "permit_any_code" (PyBool false)))
            then Some (mkExpectedSpectrumInquiryResponseMessage
                         (exp_version mask_obj)
                         (clear_disallowed <$> expectedSpectrumInquiryResponses mask_obj)
                         (mask_vendorExtensions mask_obj))
            else Some mask_obj
          else None
      end
  end.

(** One round of the loop over [args.src]. *)
Definition main_process_src (mask2resp_cfg : gmap string pyval)
    (src_path : string) (is_dir : bool)
    (src_files : list (option AvailableSpectrumInquiryResponseMessage))
    : outcome :=
  let src_gen_name := main_src_gen_name src_path is_dir in
  let mask_set := omap (main_convert_file mask2resp_cfg) src_files in
  let merged :=
    match mask_set with
    | [] => None
    | [mask_obj] => Some (Ok mask_obj)
    | mask_obj :: rest => Some (main_merge mask_obj rest)
    end in
  match merged with
  | None => NoValidResponses
  | Some (Raise e) => Uncaught e
  | Some (Ok mask_obj) =>
      match main_mask_file_name src_path src_gen_name mask_obj with
      | Raise e => Uncaught e
      | Ok mask_file_name => MaskWritten mask_file_name mask_obj
      end
  end.

End Driver.

(** ** The prompts of the driver *)

(** What [_ask_yes_no] ends in on the lines that standard input still
    holds: an answer, after so many lines that were neither [y] nor [n]
    (each one answered by the reminder), or the end of the input, where
    [input()] raises [EOFError]. *)
Inductive ask_outcome : Type :=
  | Answered (answer : bool) (reminders : nat) (rest : list string)
  | EndOfInput (reminders : nat).

(** One more reminder printed before the outcome. *)
Definition reminded (o : ask_outcome) : ask_outcome :=
  match o with
  | Answered answer reminders rest => Answered answer (S reminders) rest
  | EndOfInput reminders => EndOfInput (S reminders)
  end.

(** [_ask_yes_no(y_action_text)]; the text only shows in the reminder. *)
Fixpoint _ask_yes_no (stdin : list string) : ask_outcome :=
  match stdin with
  | [] => EndOfInput 0
  | user_resp :: rest =>
      if bool_decide (user_resp ∈ ["y"; "n"])
      then Answered (bool_decide (user_resp = "y")) 0 rest
      else reminded (_ask_yes_no rest)
  end.

(** A line that [_ask_yes_no] does not take for an answer. *)
Definition unrecognized (line : string) : Prop := line ≠ "y" ∧ line ≠ "n".

(** What the prompts before a mask is saved end in: the mask is saved,
    the source is skipped, the run exits with status 1, or the input
    ends. *)
Inductive prompt_outcome : Type :=
  | Save (rest : list string)
  | SkipSource (rest : list string)
  | Exit1 (rest : list string)
  | InputEnded.

(** The block "Prompt for file issues" of [main]: [output_exists] is
    [path.exists(output_path)], [dir_exists] is
    [path.exists(args.output_dir)]. *)
Definition main_prompts (assume_yes quiet output_exists dir_exists : bool)
    (stdin : list string) : prompt_outcome :=
  if negb (assume_yes || quiet) then
    let create_dir (stdin : list string) :=
      if negb dir_exists then
        match _ask_yes_no stdin with
        | Answered true _ rest => Save rest
        | Answered false _ rest => Exit1 rest
        | EndOfInput _ => InputEnded
        end
      else Save stdin in
    if output_exists then
      match _ask_yes_no stdin with
      | Answered true _ rest => create_dir rest
      | Answered false _ rest => SkipSource rest
      | EndOfInput _ => InputEnded
      end
    else create_dir stdin
  else Save stdin.

(** ** Sample responses *)

Definition sample_ruleset : string := "US_47_CFR_PART_15_SUBPART_E".

Definition sample_extension : VendorExtension :=
  mkVendorExtension "vendor.example" "{}".

(** A successful response with one frequency range and one channel. *)
Definition sample_resp (id : string) (exts : option (list VendorExtension))
    : AvailableSpectrumInquiryResponse :=
  mkAvailableSpectrumInquiryResponse id sample_ruleset (mkResponse SUCCESS "Success")
    [mkAvailableFrequencyInfo (mkFrequencyRange 5945 5965) (Fin (Qc_of_Z 23))]
    [mkAvailableChannelInfo 131 [5%Z] [Fin (Qc_of_Z 36)]]
    exts.

Definition sample_msg (v id : string) (exts : option (list VendorExtension))
    : AvailableSpectrumInquiryResponseMessage :=
  mkAvailableSpectrumInquiryResponseMessage v [sample_resp id exts] exts.

(** Its mask under the default configuration. *)
Definition sample_exp_resp (id : string) : ExpectedSpectrumInquiryResponse :=
  mkExpectedSpectrumInquiryResponse id sample_ruleset [SUCCESS]
    [mkExpectedAvailableFrequencyInfo (mkFrequencyRange 5945 5965)
       (mkExpectedPowerRange (Fin (Qc_of_Z 23)) (Fin (Qc_of_Z 23)) NegInf)]
    [mkExpectedAvailableChannelInfo 131 [5%Z]
       [mkExpectedPowerRange (Fin (Qc_of_Z 36)) (Fin (Qc_of_Z 36)) NegInf]]
    None None.

Definition sample_mask (v : string) (ids : list string)
    : ExpectedSpectrumInquiryResponseMessage :=
  mkExpectedSpectrumInquiryResponseMessage v (sample_exp_resp <$> ids) None.

(** A response that failed with a specific code, here 103. *)
Definition failed_resp : AvailableSpectrumInquiryResponse :=
  mkAvailableSpectrumInquiryResponse "REQ-FSP1" sample_ruleset
    (mkResponse (SpecificFailure 103) "Invalid value") [] []
    (Some [sample_extension]).

(** * Properties *)

(** ** Tactics *)

Ltac qc_order :=
  unfold Qcle, Qclt, Qcplus, Qcminus, Qcopp, Q2Qc in *; simpl in *;
  rewrite ?Qred_correct in *; lra.

Ltac num_order :=
  repeat match goal with n : number |- _ => destruct n end;
  simpl in *; try done; try qc_order.

(** Equality of concrete rationals, up to the proof that they are reduced. *)
Ltac qc_eq :=
  repeat match goal with
         | |- @eq Qc _ _ => apply Qc_is_canon; reflexivity
         | |- _ => progress f_equal
         end.

Ltac by_compute := apply (bool_decide_unpack _); vm_compute; exact I.

Ltac destruct_char c :=
  destruct c as [[] [] [] [] [] [] [] []]; try discriminate.

(** ** The order on numbers *)



Lemma num_lt_le a b : num_lt a b → num_le a b.
Proof. num_order. Qed.

Lemma num_not_lt a b : ¬ num_lt a b ↔ num_le b a.
Proof.
  destruct a, b; simpl; try tauto.
  split; [apply Qcnot_lt_le | apply Qcle_not_lt].
Qed.


(** ** Built-ins *)










Lemma dec_add_finite a m : is_finite a → ∃ u, dec_add a m = Ok u.
Proof. destruct a, m; simpl; try done; eauto. Qed.

Lemma dec_sub_finite a m : is_finite a → ∃ l, dec_sub a m = Ok l.
Proof. destruct a, m; simpl; try done; eauto. Qed.



Lemma sorted_median_finite lo hi x :
  is_finite x → lo ≠ PosInf → hi ≠ NegInf →
  ∃ mid, index (sorted [lo; x; hi]) 1 = Ok mid ∧ is_finite mid.
Proof.
  intros Hx Hlo Hhi. unfold sorted; simpl.
  repeat (case_bool_decide; simpl); eexists; (split; [done|]);
    destruct lo, hi, x; done.
Qed.

(** [exp_range_from] raises nothing on a finite nominal value, whatever
    the margins, when the lower limit is not plus infinity and the upper
    limit is not minus infinity. *)
Lemma exp_range_from_total nominal_value margins limits :
  is_finite nominal_value →
  limit_lower_of limits ≠ PosInf → limit_upper_of limits ≠ NegInf →
  ∃ r, exp_range_from nominal_value margins limits = Ok r.
Proof.
  intros Hfin Hlo Hhi. unfold exp_range_from.
  destruct (sorted_median_finite _ _ _ Hfin Hlo Hhi) as (mid & -> & Hmid).
  simpl. unfold to_Decimal, to_float.
  destruct (dec_add_finite _ (margin_upper_of margins) Hmid) as [u ->].
  destruct (dec_sub_finite _ (margin_lower_of margins) Hmid) as [l ->].
  simpl. eauto.
Qed.




(** With default margins, an infinite nominal value: minus infinity is
    kept, plus infinity makes the lower bound's subtraction signal. *)
Lemma exp_range_from_defaults_infinite :
  exp_range_from NegInf None None
  = Ok (mkExpectedPowerRange NegInf NegInf NegInf)
  ∧ exp_range_from PosInf None None = Raise InvalidOperation.
Proof. split; reflexivity. Qed.

(** ** Error-propagating maps *)

Lemma rbind_Ok {A B} (m : result A) (f : A → result B) b :
  rbind m f = Ok b ↔ ∃ a, m = Ok a ∧ f a = Ok b.
Proof.
  destruct m as [a|e]; simpl; split.
  - eauto.
  - by intros (a' & [= ->] & ?).
  - done.
  - by intros (a' & ? & ?).
Qed.

Lemma rmap_Ok {A B} (f : A → result B) l l' :
  rmap f l = Ok l' ↔ Forall2 (λ x y, f x = Ok y) l l'.
Proof.
  revert l'. induction l as [|x l IH]; intros l'; simpl.
  - split; [intros [= <-]; constructor | by inversion 1].
  - rewrite rbind_Ok. split.
    + intros (y & Hy & Hrest). apply rbind_Ok in Hrest as (ys & Hys & [= <-]).
      constructor; [done | by apply IH].
    + inversion 1 as [|? y ? ys Hy Hys]; subst. exists y. split; [done|].
      apply rbind_Ok. exists ys. split; [by apply IH | done].
Qed.

Lemma rmap_total {A B} (f : A → result B) l :
  (∀ x, x ∈ l → ∃ y, f x = Ok y) → ∃ l', rmap f l = Ok l'.
Proof.
  induction l as [|x l IH]; intros Hall; simpl; [eauto|].
  destruct (Hall x) as [y ->]; [left|]. simpl.
  destruct IH as [ys ->]; [intros; apply Hall; by right|].
  simpl. eauto.
Qed.

(** ** Channel conversion *)


(** ** Keyword binding *)

Lemma kw_rest_lookup names (kw : gmap string pyval) k :
  kw_rest names kw !! k = if decide (k ∈ names) then None else kw !! k.
Proof.
  induction names as [|n names IH].
  - rewrite decide_False by apply not_elem_of_nil. done.
  - change (kw_rest (n :: names) kw) with (delete n (kw_rest names kw)).
    destruct (decide (n = k)) as [->|Hne].
    + rewrite lookup_delete_eq. by rewrite decide_True by left.
    + rewrite lookup_delete_ne by done. rewrite IH.
      destruct (decide (k ∈ names)) as [Hin|Hnin].
      * by rewrite decide_True by by right.
      * rewrite decide_False; [done|]. by intros [->|?]%elem_of_cons.
Qed.

Lemma kw_rest_empty_lookup names (kw : gmap string pyval) k :
  kw_rest names kw = ∅ → k ∉ names → kw !! k = None.
Proof.
  intros Hrest Hk. pose proof (kw_rest_lookup names kw k) as Hl.
  rewrite Hrest, lookup_empty in Hl. by rewrite decide_False in Hl.
Qed.

Lemma kw_call_fresh named (kwargs : gmap string pyval) :
  Forall (λ kv, kwargs !! kv.1 = None) named →
  kw_call named kwargs = Ok (foldr (λ kv m, <[kv.1 := kv.2]> m) kwargs named).
Proof. intros H. unfold kw_call. by rewrite bool_decide_eq_true_2. Qed.

(** ** Response and message conversion *)

Lemma exp_resp_from_inv resp kw r :
  exp_resp_from resp kw = Ok r →
  ∃ freq chan,
    r = mkExpectedSpectrumInquiryResponse
          (requestId resp) (rulesetId resp)
          (if truthy (expect_less_specific_error_of kw)
              && bool_decide (responseCode (response resp) ∉ [SUCCESS; GENERAL_FAILURE])
           then [responseCode (response resp); GENERAL_FAILURE]
           else [responseCode (response resp)])
          freq chan
          (if is_False (exclude_extensions_of kw) then vendorExtensions resp else None)
          (if truthy (permit_any_code_of kw) then Some [] else None).
Proof.
  unfold exp_resp_from. case_bool_decide; [done|].
  intros (freq & _ & Hr)%rbind_Ok. apply rbind_Ok in Hr as (chan & _ & [= <-]).
  by exists freq, chan.
Qed.

Lemma exp_msg_from_inv msg kw m :
  exp_msg_from msg kw = Ok m →
  ∃ resps,
    Forall2 (λ x y, exp_resp_from x (exp_msg_from_resp_kw kw) = Ok y)
            (availableSpectrumInquiryResponses msg) resps
    ∧ m = mkExpectedSpectrumInquiryResponseMessage
            (version msg) resps
            (if is_False (exclude_extensions_of kw) then msg_vendorExtensions msg else None).
Proof.
  unfold exp_msg_from. case_bool_decide; [done|].
  intros (resps & Hresps & [= <-])%rbind_Ok.
  exists resps. split; [|done].
  apply rmap_Ok in Hresps. eapply Forall2_impl; [exact Hresps|].
  intros x y Hxy. rewrite kw_call_fresh in Hxy; [done|].
  repeat constructor. simpl. apply lookup_delete_eq.
Qed.

Lemma exp_msg_from_resp_kw_get kw key dflt :
  kw_get (exp_msg_from_resp_kw kw) key dflt
  = if decide (key = "exclude_extensions") then exclude_extensions_of kw
    else kw_get kw key dflt.
Proof.
  unfold exp_msg_from_resp_kw, kw_get. case_decide as Hk.
  - subst. by rewrite lookup_insert_eq.
  - by rewrite lookup_insert_ne, lookup_delete_ne.
Qed.

Lemma exp_range_from_kw_total x mv lv :
  margins_usable mv → limits_usable lv → is_finite x →
  ∃ r, exp_range_from_kw x (<["margins" := mv]> (<["limits" := lv]> ∅)) = Ok r.
Proof.
  intros [margins Hm] (limits & Hl & Hlo & Hhi) Hx. unfold exp_range_from_kw.
  rewrite bool_decide_eq_true_2.
  - unfold kw_get. rewrite lookup_insert_eq, lookup_insert_ne, lookup_insert_eq by done.
    simpl. rewrite Hm, Hl. simpl. by apply exp_range_from_total.
  - apply map_eq. intros k. rewrite kw_rest_lookup, lookup_empty.
    case_decide as Hk; [done|].
    rewrite !lookup_insert_ne, lookup_empty; [done|..];
      intros <-; apply Hk; set_solver.
Qed.

Lemma exp_resp_from_total resp kw :
  cfg_usable kw → resp_finite resp → ∃ r, exp_resp_from resp kw = Ok r.
Proof.
  intros (Hrest & Hpm & Hpl & Hem & Hel) [Hfreq Hchan]. unfold exp_resp_from.
  rewrite bool_decide_eq_false_2.
  2:{ rewrite (kw_rest_empty_lookup _ _ "resp" Hrest); [by intros [? ?]|].
      by apply (bool_decide_unpack _). }
  rewrite Hrest.
  edestruct (rmap_total
    (λ x, kw' ←? kw_call [("margins", kw_get kw "psd_margins" PyNone);
                          ("limits", kw_get kw "psd_limits" PyNone)] ∅;
          exp_freq_info_from x kw')
    (availableFrequencyInfo resp)) as [freq ->].
  { intros x Hx. rewrite kw_call_fresh by (repeat constructor). simpl.
    unfold exp_freq_info_from.
    destruct (exp_range_from_kw_total (maxPsd x) _ _ Hpm Hpl) as [r ->].
    - by eapply Forall_forall in Hfreq.
    - simpl. eauto. }
  edestruct (rmap_total
    (λ x, kw' ←? kw_call [("margins", kw_get kw "eirp_margins" PyNone);
                          ("limits", kw_get kw "eirp_limits" PyNone)] ∅;
          exp_chan_info_from x kw')
    (availableChannelInfo resp)) as [chan ->].
  { intros x Hx. rewrite kw_call_fresh by (repeat constructor). simpl.
    unfold exp_chan_info_from.
    edestruct (rmap_total (λ y, exp_range_from_kw y
      (<["margins" := kw_get kw "eirp_margins" PyNone]>
         (<["limits" := kw_get kw "eirp_limits" PyNone]> ∅))) (maxEirp x))
      as [ranges ->].
    - intros y Hy. apply (exp_range_from_kw_total y _ _ Hem Hel).
      eapply Forall_forall in Hchan; [|exact Hx].
      by eapply Forall_forall in Hchan.
    - simpl. eauto. }
  simpl. eauto.
Qed.

Lemma cfg_usable_resp_kw kw : cfg_usable kw → cfg_usable (exp_msg_from_resp_kw kw).
Proof.
  intros (Hrest & Hpm & Hpl & Hem & Hel). unfold cfg_usable.
  rewrite !exp_msg_from_resp_kw_get. repeat (rewrite decide_False by done).
  repeat split; try done.
  apply map_eq. intros k. rewrite kw_rest_lookup, lookup_empty.
  case_decide as Hk; [done|]. unfold exp_msg_from_resp_kw.
  rewrite lookup_insert_ne by (intros <-; apply Hk; set_solver).
  rewrite lookup_delete_ne by (intros <-; apply Hk; set_solver).
  by apply (kw_rest_empty_lookup _ _ _ Hrest).
Qed.

Lemma exp_msg_from_total msg kw :
  cfg_usable kw → Forall resp_finite (availableSpectrumInquiryResponses msg) →
  ∃ m, exp_msg_from msg kw = Ok m.
Proof.
  intros Hcfg Hfin. unfold exp_msg_from.
  rewrite bool_decide_eq_false_2.
  2:{ destruct Hcfg as [Hrest _].
      rewrite (kw_rest_empty_lookup _ _ "msg" Hrest); [by intros [? ?]|].
      by apply (bool_decide_unpack _). }
  edestruct (rmap_total
    (λ x, kw' ←? kw_call [("exclude_extensions", kw_get kw "exclude_extensions" (PyBool true))]
                         (kw_rest ["exclude_extensions"] kw);
          exp_resp_from x kw')
    (availableSpectrumInquiryResponses msg)) as [resps ->].
  { intros x Hx. rewrite kw_call_fresh.
    - simpl. apply exp_resp_from_total.
      + by apply cfg_usable_resp_kw.
      + by eapply Forall_forall in Hfin.
    - repeat constructor. simpl. apply lookup_delete_eq. }
  simpl. eauto.
Qed.

Lemma is_False_spec v : is_False v = true ↔ v = PyBool false.
Proof. destruct v as [|[]| | |]; simpl; split; congruence. Qed.

(** C4: the expected response codes are the response's own code alone
    when [expect_less_specific_error] is false or the code is SUCCESS or
    GENERAL_FAILURE, and that code followed by GENERAL_FAILURE when
    [expect_less_specific_error] is true and the code is neither.  The
    converted response is returned for every usable configuration and
    every response with finite power values. *)
Theorem exp_resp_from_expected_codes resp kw :
  let code := responseCode (response resp) in
  (∀ r, exp_resp_from resp kw = Ok r →
     (truthy (expect_less_specific_error_of kw) = false
      ∨ code = SUCCESS ∨ code = GENERAL_FAILURE →
      expectedResponseCodes r = [code])
     ∧ (truthy (expect_less_specific_error_of kw) = true →
        code ≠ SUCCESS → code ≠ GENERAL_FAILURE →
        expectedResponseCodes r = [code; GENERAL_FAILURE]))
  ∧ (cfg_usable kw → resp_finite resp → ∃ r, exp_resp_from resp kw = Ok r).
Proof.
  intros code. split; [|apply exp_resp_from_total].
  intros r (freq & chan & ->)%exp_resp_from_inv. simpl. fold code. split.
  - intros [-> | [Hc | Hc]]; [done | |];
      rewrite (bool_decide_eq_false_2 (code ∉ _)), andb_false_r; try done;
      rewrite Hc; intros Hnin; apply Hnin; repeat constructor.
  - intros -> Hs Hg. rewrite bool_decide_eq_true_2; [done|].
    by intros [? | [? | []%elem_of_nil]%elem_of_cons]%elem_of_cons.
Qed.

(** C10: the converted response and the converted message carry the
    source's vendor extensions when [exclude_extensions] is the object
    [False], and none for every other value, the falsy [0], [None] and
    empty string among them. *)
Theorem extensions_kept_only_when_exclude_is_False :
  (∀ resp kw r, exp_resp_from resp kw = Ok r →
     (exclude_extensions_of kw = PyBool false →
      exp_vendorExtensions r = vendorExtensions resp)
     ∧ (exclude_extensions_of kw ≠ PyBool false → exp_vendorExtensions r = None))
  ∧ (∀ msg kw m, exp_msg_from msg kw = Ok m →
     (exclude_extensions_of kw = PyBool false →
      mask_vendorExtensions m = msg_vendorExtensions msg
      ∧ Forall2 (λ x y, exp_vendorExtensions y = vendorExtensions x)
                (availableSpectrumInquiryResponses msg)
                (expectedSpectrumInquiryResponses m))
     ∧ (exclude_extensions_of kw ≠ PyBool false →
        mask_vendorExtensions m = None
        ∧ Forall (λ y, exp_vendorExtensions y = None)
                 (expectedSpectrumInquiryResponses m)))
  ∧ (∀ v, v ∈ [PyNum (Fin 0); PyNone; PyStr ""] →
     truthy v = false ∧ v ≠ PyBool false)
  ∧ (∀ msg kw, cfg_usable kw →
     Forall resp_finite (availableSpectrumInquiryResponses msg) →
     ∃ m, exp_msg_from msg kw = Ok m).
Proof.
  assert (∀ resp kw r, exp_resp_from resp kw = Ok r →
     exp_vendorExtensions r
     = if is_False (exclude_extensions_of kw) then vendorExtensions resp else None)
    as Hresp.
  { intros resp kw r (freq & chan & ->)%exp_resp_from_inv. done. }
  assert (∀ v, v ≠ PyBool false → is_False v = false) as Hne.
  { intros v Hv. destruct (is_False v) eqn:E; [|done]. by apply is_False_spec in E. }
  split; [|split; [|split]].
  - intros resp kw r Hr. rewrite (Hresp _ _ _ Hr). split.
    + by intros ->.
    + intros Hv. by rewrite Hne.
  - intros msg kw m (resps & Hall & ->)%exp_msg_from_inv. simpl.
    assert (exclude_extensions_of (exp_msg_from_resp_kw kw) = exclude_extensions_of kw)
      as Hee.
    { unfold exclude_extensions_of at 1. by rewrite exp_msg_from_resp_kw_get. }
    split.
    + intros Hv. rewrite Hv. split; [done|].
      eapply Forall2_impl; [exact Hall|]. intros x y Hxy. simpl in Hxy.
      by rewrite (Hresp _ _ _ Hxy), Hee, Hv.
    + intros Hv. rewrite (Hne _ Hv). split; [done|].
      induction Hall as [|x y xs ys Hxy _ IH]; constructor; [|done].
      by rewrite (Hresp _ _ _ Hxy), Hee, (Hne _ Hv).
  - intros v Hv. set_unfold in Hv. destruct Hv as [-> | [-> | [-> | []]]]; done.
  - apply exp_msg_from_total.
Qed.

(** ** The driver *)

Lemma main_merge_nil mask_obj : main_merge mask_obj [] = Ok mask_obj.
Proof. done. Qed.

(** A mask of another version is passed over and the loop goes on. *)
Lemma main_merge_mismatch mask_obj mask rest :
  exp_version mask_obj ≠ exp_version mask →
  main_merge mask_obj (mask :: rest) = main_merge mask_obj rest.
Proof. intros Hv. simpl. by rewrite bool_decide_eq_true_2. Qed.


(** The version of the first mask is the version of the merged mask. *)
Lemma main_merge_version rest :
  ∀ mask_obj m, main_merge mask_obj rest = Ok m → exp_version m = exp_version mask_obj.
Proof.
  induction rest as [|mask rest IH]; intros mask_obj m; simpl.
  - by intros [= <-].
  - case_bool_decide; [by apply IH|].
    destruct (mask_vendorExtensions mask_obj) as [exts|].
    + destruct (mask_vendorExtensions mask) as [more|]; [|done].
      intros Hm. by rewrite (IH _ _ Hm).
    + intros Hm. by rewrite (IH _ _ Hm).
Qed.

(** Masks of one version: the merged response list is the concatenation
    of the response lists, in the order of the set. *)
Lemma main_merge_same_version rest :
  ∀ mask_obj m,
    Forall (λ mask, exp_version mask = exp_version mask_obj) rest →
    main_merge mask_obj rest = Ok m →
    expectedSpectrumInquiryResponses m
    = expectedSpectrumInquiryResponses mask_obj
        ++ concat (expectedSpectrumInquiryResponses <$> rest).
Proof.
  induction rest as [|mask rest IH]; intros mask_obj m Hv; simpl.
  - intros [= <-]. by rewrite app_nil_r.
  - apply Forall_cons in Hv as [Hmask Hv].
    rewrite bool_decide_eq_false_2 by (by intros []).
    destruct (mask_vendorExtensions mask_obj) as [exts|].
    + destruct (mask_vendorExtensions mask) as [more|]; [|done].
      intros Hm. apply IH in Hm; [|done]. rewrite Hm. simpl. by rewrite app_assoc.
    + intros Hm. apply IH in Hm; [|done]. rewrite Hm. simpl. by rewrite app_assoc.
Qed.


Section DriverProperties.

Variable mask_valid : ExpectedSpectrumInquiryResponseMessage → bool.


Lemma main_process_src_written cfg src_path is_dir src_files name m :
  main_process_src mask_valid cfg src_path is_dir src_files = MaskWritten name m →
  ∃ mask_obj rest,
    omap (main_convert_file mask_valid cfg) src_files = mask_obj :: rest
    ∧ main_merge mask_obj rest = Ok m
    ∧ main_mask_file_name src_path (main_src_gen_name src_path is_dir) m = Ok name.
Proof.
  unfold main_process_src.
  destruct (omap _ src_files) as [|mask_obj [|mask rest]] eqn:Hset; [done|..].
  - destruct (main_mask_file_name _ _ _) eqn:Hn; [|done].
    intros [= -> ->]. by exists m, [].
  - destruct (main_merge mask_obj (mask :: rest)) as [merged|] eqn:Hm; [|done].
    destruct (main_mask_file_name _ _ _) eqn:Hn; [|done].
    intros [= -> ->]. by exists mask_obj, (mask :: rest).
Qed.


End DriverProperties.


(** ** The request-identifier pattern and the mask file name *)

Lemma wfa_fullmatch_Some s letters digits :
  wfa_fullmatch s = Some (letters, digits) ↔ wfa_pattern s letters digits.
Proof.
  unfold wfa_pattern. split.
  - destruct s as [|c1 [|c2 [|c3 [|c4 [|a [|b [|c [|d ds]]]]]]]];
      try (simpl; discriminate);
      try (destruct_char c1; destruct_char c2; destruct_char c3; destruct_char c4;
           discriminate).
    destruct_char c1; destruct_char c2; destruct_char c3; destruct_char c4.
    unfold wfa_fullmatch.
    destruct (is_upper a) eqn:Ha; [|discriminate].
    destruct (is_upper b) eqn:Hb; [|discriminate].
    destruct (is_upper c) eqn:Hc; [|discriminate].
    destruct (all_chars is_digit (String d ds)) eqn:Hd; [|discriminate].
    simpl andb. intros [= <- <-]. simpl all_chars. rewrite Ha, Hb, Hc.
    repeat split; done.
  - intros (-> & Hlen & Hup & Hne & Hdig).
    destruct letters as [|a [|b [|c [|? ?]]]]; try discriminate.
    destruct digits as [|d ds]; [done|].
    simpl in Hup. apply andb_prop in Hup as [Ha Hup].
    apply andb_prop in Hup as [Hb Hup]. apply andb_prop in Hup as [Hc _].
    change ("REQ-" +:+ String a (String b (String c "")) +:+ String d ds)
      with (String "R" (String "E" (String "Q" (String "-"
             (String a (String b (String c (String d ds)))))))).
    unfold wfa_fullmatch. by rewrite Ha, Hb, Hc, Hdig.
Qed.


Lemma str_app_assoc s1 s2 s3 : (s1 +:+ s2) +:+ s3 = s1 +:+ s2 +:+ s3.
Proof.
  induction s1 as [|c s1 IH]; [done|].
  change (String c ((s1 +:+ s2) +:+ s3) = String c (s1 +:+ s2 +:+ s3)).
  by rewrite IH.
Qed.


(** C2, on the code: a response set of three files, the second of
    another version.  The merge passes over the second file and goes on;
    a mask with the first and the third response is written. *)
Theorem main_version_mismatch_still_writes :
  main_process_src (λ _, true) ∅ "set_a" true
    [Some (sample_msg "1.4" "A1" None);
     Some (sample_msg "1.3" "B1" None);
     Some (sample_msg "1.4" "C1" None)]
  = MaskWritten "set_a_mask.json" (sample_mask "1.4" ["A1"; "C1"]).
Proof. vm_compute. qc_eq. Qed.

(** C3, on the code: a response set of two files of one version, converted
    with [exclude_extensions = false]; the first carries vendor extensions,
    the second carries none.  Extending the first list by [None] raises a
    [TypeError] that nothing catches. *)
Theorem main_merge_unset_extensions_uncaught :
  main_process_src (λ _, true) (<["exclude_extensions" := PyBool false]> ∅) "set_a" true
    [Some (sample_msg "1.4" "A1" (Some [sample_extension]));
     Some (sample_msg "1.4" "B1" None)]
  = Uncaught TypeError.
Proof. vm_compute. reflexivity. Qed.

(** The case the merge does handle: an accumulator without extensions
    takes the extensions of the next mask. *)
Lemma main_merge_unset_accumulator mask_obj mask :
  exp_version mask_obj = exp_version mask →
  mask_vendorExtensions mask_obj = None →
  main_merge mask_obj [mask]
  = Ok (mkExpectedSpectrumInquiryResponseMessage
          (exp_version mask_obj)
          (expectedSpectrumInquiryResponses mask_obj
             ++ expectedSpectrumInquiryResponses mask)
          (mask_vendorExtensions mask)).
Proof.
  intros Hv Hacc. simpl. rewrite bool_decide_eq_false_2 by (by intros []).
  by rewrite Hacc.
Qed.

(** Both lists set: the extensions are concatenated. *)
Lemma main_merge_set_both mask_obj mask exts more :
  exp_version mask_obj = exp_version mask →
  mask_vendorExtensions mask_obj = Some exts →
  mask_vendorExtensions mask = Some more →
  main_merge mask_obj [mask]
  = Ok (mkExpectedSpectrumInquiryResponseMessage
          (exp_version mask_obj)
          (expectedSpectrumInquiryResponses mask_obj
             ++ expectedSpectrumInquiryResponses mask)
          (Some (exts ++ more))).
Proof.
  intros Hv Hacc Hnext. simpl. rewrite bool_decide_eq_false_2 by (by intros []).
  by rewrite Hacc, Hnext.
Qed.

(** An accumulator with extensions and a next mask without: the merge
    raises. *)
Lemma main_merge_unset_next mask_obj mask rest exts :
  exp_version mask_obj = exp_version mask →
  mask_vendorExtensions mask_obj = Some exts →
  mask_vendorExtensions mask = None →
  main_merge mask_obj (mask :: rest) = Raise TypeError.
Proof.
  intros Hv Hacc Hnext. simpl. rewrite bool_decide_eq_false_2 by (by intros []).
  by rewrite Hacc, Hnext.
Qed.


(** ** Instances of the conversion theorems *)

Lemma cfg_usable_empty : cfg_usable ∅.
Proof.
  split; [reflexivity|].
  repeat split; exists None; repeat split; discriminate.
Qed.

Lemma resp_finite_failed_resp : resp_finite failed_resp.
Proof. split; constructor. Qed.

Lemma exp_resp_from_expected_codes_witness :
  ∃ r, exp_resp_from failed_resp ∅ = Ok r
       ∧ expectedResponseCodes r = [SpecificFailure 103; GENERAL_FAILURE].
Proof.
  destruct (exp_resp_from_expected_codes failed_resp ∅) as [Hcodes Hreturns].
  destruct (Hreturns cfg_usable_empty resp_finite_failed_resp) as [r Hr].
  exists r. split; [exact Hr|].
  destruct (Hcodes r Hr) as [_ Hrelaxed].
  apply Hrelaxed; [reflexivity | discriminate | discriminate].
Defined.


Lemma extensions_kept_only_when_exclude_is_False_witness :
  (∃ r, exp_resp_from failed_resp (<["exclude_extensions" := PyBool false]> ∅) = Ok r
        ∧ exp_vendorExtensions r = Some [sample_extension])
  ∧ (∃ r, exp_resp_from failed_resp (<["exclude_extensions" := PyNum (Fin 0)]> ∅) = Ok r
          ∧ exp_vendorExtensions r = None).
Proof.
  destruct extensions_kept_only_when_exclude_is_False as (Hresp & _ & _ & _).
  split.
  - destruct (exp_resp_from failed_resp (<["exclude_extensions" := PyBool false]> ∅))
      as [r|e] eqn:Hr; [|vm_compute in Hr; discriminate].
    exists r. split; [reflexivity|].
    destruct (Hresp _ _ _ Hr) as [Hkept _]. apply Hkept. reflexivity.
  - destruct (exp_resp_from failed_resp (<["exclude_extensions" := PyNum (Fin 0)]> ∅))
      as [r|e] eqn:Hr; [|vm_compute in Hr; discriminate].
    exists r. split; [reflexivity|].
    destruct (Hresp _ _ _ Hr) as [_ Hdropped]. apply Hdropped. discriminate.
Defined.


(** ** Worked examples *)

(** Three channel power values give three ranges, in order. *)
Example exp_chan_info_from_three :
  exp_chan_info_from
    (mkAvailableChannelInfo 131 [1%Z; 5%Z; 9%Z]
       [Fin (Qc_of_Z 10); Fin (Qc_of_Z 12); Fin (Qc_of_Z 14)]) ∅
  = Ok (mkExpectedAvailableChannelInfo 131 [1%Z; 5%Z; 9%Z]
          [mkExpectedPowerRange (Fin (Qc_of_Z 10)) (Fin (Qc_of_Z 10)) NegInf;
           mkExpectedPowerRange (Fin (Qc_of_Z 12)) (Fin (Qc_of_Z 12)) NegInf;
           mkExpectedPowerRange (Fin (Qc_of_Z 14)) (Fin (Qc_of_Z 14)) NegInf]).
Proof. vm_compute. qc_eq. Qed.

Example exp_resp_from_relaxed :
  expectedResponseCodes <$> result_value (exp_resp_from failed_resp ∅)
  = Some [SpecificFailure 103; GENERAL_FAILURE].
Proof. reflexivity. Qed.

Example exp_resp_from_not_relaxed :
  expectedResponseCodes
    <$> result_value (exp_resp_from failed_resp
                        (<["expect_less_specific_error" := PyBool false]> ∅))
  = Some [SpecificFailure 103].
Proof. reflexivity. Qed.

Example exp_resp_from_permit_any_code :
  disallowedResponseCodes
    <$> result_value (exp_resp_from failed_resp (<["permit_any_code" := PyBool true]> ∅))
  = Some (Some [])
  ∧ disallowedResponseCodes <$> result_value (exp_resp_from failed_resp ∅) = Some None.
Proof. split; reflexivity. Qed.

(** Only the object [False] lets the extensions through. *)
Example exp_resp_from_extensions :
  exp_vendorExtensions
    <$> result_value (exp_resp_from failed_resp
                        (<["exclude_extensions" := PyBool false]> ∅))
  = Some (Some [sample_extension])
  ∧ Forall (λ v, exp_vendorExtensions
                   <$> result_value (exp_resp_from failed_resp
                                       (<["exclude_extensions" := v]> ∅))
                 = Some None)
           [PyNum (Fin 0); PyNone; PyStr ""; PyBool true].
Proof. split; [reflexivity | repeat constructor]. Qed.

(** A set of two files of one version: both responses, in order. *)
Example main_process_src_two_files :
  main_process_src (λ _, true) ∅ "cert_vectors" true
    [Some (sample_msg "1.4" "REQ-FSP1" None); None;
     Some (sample_msg "1.4" "REQ-FSP2" None)]
  = MaskWritten "AFCS.cert.vectors_mask.json"
      (sample_mask "1.4" ["REQ-FSP1"; "REQ-FSP2"]).
Proof. vm_compute. qc_eq. Qed.

(** * Further properties *)

(** ** The range expander *)

Lemma exp_range_from_steps nominal_value margins limits r :
  exp_range_from nominal_value margins limits = Ok r →
  ∃ mid upper lower,
    index (sorted [limit_lower_of limits; nominal_value; limit_upper_of limits]) 1 = Ok mid
    ∧ dec_add mid (margin_upper_of margins) = Ok upper
    ∧ dec_sub mid (margin_lower_of margins) = Ok lower
    ∧ r = mkExpectedPowerRange (py_min upper (limit_upper_of limits)) mid
                               (py_max lower (limit_lower_of limits)).
Proof.
  unfold exp_range_from.
  intros (mid & Hmid & Hr)%rbind_Ok. unfold to_Decimal, to_float in Hr.
  apply rbind_Ok in Hr as (upper & Hu & Hr).
  apply rbind_Ok in Hr as (lower & Hl & [= <-]).
  by exists mid, upper, lower.
Qed.


Lemma py_min_mono a a' b : num_le a a' → num_le (py_min a b) (py_min a' b).
Proof.
  intros Ha. unfold py_min.
  repeat case_bool_decide; rewrite ?num_not_lt in *; num_order.
Qed.

Lemma py_max_mono a a' b : num_le a a' → num_le (py_max a b) (py_max a' b).
Proof.
  intros Ha. unfold py_max.
  repeat case_bool_decide; rewrite ?num_not_lt in *; num_order.
Qed.

Lemma dec_add_mono a m m' u u' :
  num_le m m' → dec_add a m = Ok u → dec_add a m' = Ok u' → num_le u u'.
Proof.
  destruct a, m, m'; simpl; intros Hm [= <-] [= <-]; simpl; try done; qc_order.
Qed.

Lemma dec_sub_anti a m m' l l' :
  num_le m m' → dec_sub a m = Ok l → dec_sub a m' = Ok l' → num_le l' l.
Proof.
  destruct a, m, m'; simpl; intros Hm [= <-] [= <-]; simpl; try done; qc_order.
Qed.






(** X5: wider margins never give a narrower range: with the same nominal
    value and limits, the nominal is the same, the upper bound is no lower
    and the lower bound no higher. *)
Theorem exp_range_from_wider_margins nominal_value margins margins' limits r r' :
  num_le (margin_upper_of margins) (margin_upper_of margins') →
  num_le (margin_lower_of margins) (margin_lower_of margins') →
  exp_range_from nominal_value margins limits = Ok r →
  exp_range_from nominal_value margins' limits = Ok r' →
  nominal r' = nominal r
  ∧ num_le (upperBound r) (upperBound r')
  ∧ num_le (lowerBound r') (lowerBound r).
Proof.
  intros Hmu Hml Hr Hr'.
  destruct (exp_range_from_steps _ _ _ _ Hr) as (mid & upper & lower & Hmid & Hu & Hl & ->).
  destruct (exp_range_from_steps _ _ _ _ Hr')
    as (mid' & upper' & lower' & Hmid' & Hu' & Hl' & ->).
  rewrite Hmid in Hmid'. injection Hmid' as <-. simpl.
  split; [done|]. split.
  - apply py_min_mono. exact (dec_add_mono _ _ _ _ _ Hmu Hu Hu').
  - apply py_max_mono. exact (dec_sub_anti _ _ _ _ _ Hml Hl Hl').
Qed.

(** ** The converters *)

Lemma exp_range_from_kw_bound x mv lv (kwargs : gmap string pyval) r :
  kwargs !! "margins" = None → kwargs !! "limits" = None →
  exp_range_from_kw x (<["margins" := mv]> (<["limits" := lv]> kwargs)) = Ok r →
  kwargs = ∅
  ∧ ∃ margins limits, as_dict mv = Ok margins ∧ as_dict lv = Ok limits
                      ∧ exp_range_from x margins limits = Ok r.
Proof.
  intros Hm Hl. unfold exp_range_from_kw. case_bool_decide as Hrest; [|done].
  unfold kw_get. rewrite lookup_insert_eq, lookup_insert_ne, lookup_insert_eq by done.
  simpl. intros (margins & Hmv & Hr)%rbind_Ok.
  apply rbind_Ok in Hr as (limits & Hlv & Hr). split; [|by exists margins, limits].
  apply map_eq. intros k. rewrite lookup_empty.
  destruct (decide (k = "margins")) as [->|Hkm]; [done|].
  destruct (decide (k = "limits")) as [->|Hkl]; [done|].
  pose proof (kw_rest_lookup ["margins"; "limits"]
                (<["margins" := mv]> (<["limits" := lv]> kwargs)) k) as Hk.
  rewrite Hrest, lookup_empty, decide_False in Hk.
  - by rewrite !lookup_insert_ne in Hk.
  - by intros [?|[?|[]%elem_of_nil]%elem_of_cons]%elem_of_cons.
Qed.

Lemma kw_call_Ok named (kwargs kw' : gmap string pyval) :
  kw_call named kwargs = Ok kw' →
  Forall (λ kv, kwargs !! kv.1 = None) named
  ∧ kw' = foldr (λ kv m, <[kv.1 := kv.2]> m) kwargs named.
Proof. unfold kw_call. case_bool_decide; [|done]. by intros [= <-]. Qed.

(** What [exp_resp_from] computes, list by list. *)
Lemma exp_resp_from_lists resp kw r :
  exp_resp_from resp kw = Ok r →
  Forall2 (λ x y, ∃ kw', kw_call [("margins", kw_get kw "psd_margins" PyNone);
                                  ("limits", kw_get kw "psd_limits" PyNone)]
                           (kw_rest exp_resp_from_params kw) = Ok kw'
                         ∧ exp_freq_info_from x kw' = Ok y)
          (availableFrequencyInfo resp) (expectedFrequencyInfo r)
  ∧ Forall2 (λ x y, ∃ kw', kw_call [("margins", kw_get kw "eirp_margins" PyNone);
                                    ("limits", kw_get kw "eirp_limits" PyNone)]
                             (kw_rest exp_resp_from_params kw) = Ok kw'
                           ∧ exp_chan_info_from x kw' = Ok y)
            (availableChannelInfo resp) (expectedChannelInfo r).
Proof.
  unfold exp_resp_from. case_bool_decide; [done|].
  intros (freq & Hfreq & Hr)%rbind_Ok. apply rbind_Ok in Hr as (chan & Hchan & [= <-]).
  simpl. apply rmap_Ok in Hfreq. apply rmap_Ok in Hchan. split.
  - eapply Forall2_impl; [exact Hfreq|]. intros x y Hxy. by apply rbind_Ok in Hxy.
  - eapply Forall2_impl; [exact Hchan|]. intros x y Hxy. by apply rbind_Ok in Hxy.
Qed.

(** X6: in a converted response every frequency info keeps its frequency
    range, in order, and its power range is the expansion of its [maxPsd]
    under [psd_margins] and [psd_limits]; the EIRP modifiers play no part. *)
Theorem exp_resp_from_frequency_info resp kw r :
  exp_resp_from resp kw = Ok r →
  Forall2 (λ x y,
             exp_frequencyRange y = frequencyRange x
             ∧ ∃ margins limits,
                 as_dict (kw_get kw "psd_margins" PyNone) = Ok margins
                 ∧ as_dict (kw_get kw "psd_limits" PyNone) = Ok limits
                 ∧ exp_range_from (maxPsd x) margins limits = Ok (exp_maxPsd y))
          (availableFrequencyInfo resp) (expectedFrequencyInfo r).
Proof.
  intros [Hfreq _]%exp_resp_from_lists.
  eapply Forall2_impl; [exact Hfreq|]. intros x y (kw' & Hcall & Hy).
  apply kw_call_Ok in Hcall as [Hfresh ->]. simpl in Hy.
  apply Forall_cons in Hfresh as [Hm Hfresh]. apply Forall_cons in Hfresh as [Hl _].
  unfold exp_freq_info_from in Hy. apply rbind_Ok in Hy as (range & Hrange & [= <-]).
  simpl. split; [done|].
  by apply exp_range_from_kw_bound in Hrange as [_ Hrange].
Qed.

(** X7: in a converted response every channel info keeps its operating
    class and channel list, in order, and its ranges are the expansions of
    its [maxEirp] values, one by one, under [eirp_margins] and
    [eirp_limits]; the PSD modifiers play no part. *)
Theorem exp_resp_from_channel_info resp kw r :
  exp_resp_from resp kw = Ok r →
  Forall2 (λ x y,
             exp_globalOperatingClass y = globalOperatingClass x
             ∧ exp_channelCfi y = channelCfi x
             ∧ Forall2 (λ v range,
                          ∃ margins limits,
                            as_dict (kw_get kw "eirp_margins" PyNone) = Ok margins
                            ∧ as_dict (kw_get kw "eirp_limits" PyNone) = Ok limits
                            ∧ exp_range_from v margins limits = Ok range)
                       (maxEirp x) (exp_maxEirp y))
          (availableChannelInfo resp) (expectedChannelInfo r).
Proof.
  intros [_ Hchan]%exp_resp_from_lists.
  eapply Forall2_impl; [exact Hchan|]. intros x y (kw' & Hcall & Hy).
  apply kw_call_Ok in Hcall as [Hfresh ->]. simpl in Hy.
  apply Forall_cons in Hfresh as [Hm Hfresh]. apply Forall_cons in Hfresh as [Hl _].
  unfold exp_chan_info_from in Hy. apply rbind_Ok in Hy as (ranges & Hranges & [= <-]).
  simpl. repeat split; try done.
  apply rmap_Ok in Hranges. eapply Forall2_impl; [exact Hranges|].
  intros v range Hrange. simpl in Hrange.
  by apply exp_range_from_kw_bound in Hrange as [_ Hrange].
Qed.

(** X8: a converted message has the version of its source and one
    converted response per source response, in order, each with the
    request and ruleset identifiers of its source. *)
Theorem exp_msg_from_envelope msg kw m :
  exp_msg_from msg kw = Ok m →
  exp_version m = version msg
  ∧ Forall2 (λ x y, exp_requestId y = requestId x ∧ exp_rulesetId y = rulesetId x)
            (availableSpectrumInquiryResponses msg)
            (expectedSpectrumInquiryResponses m).
Proof.
  intros (resps & Hall & ->)%exp_msg_from_inv. simpl. split; [done|].
  eapply Forall2_impl; [exact Hall|]. intros x y Hxy. simpl in Hxy.
  by apply exp_resp_from_inv in Hxy as (freq & chan & ->).
Qed.

Lemma exp_range_from_kw_leftover x mv lv (kwargs : gmap string pyval) :
  kwargs ≠ ∅ →
  (kw' ←? kw_call [("margins", mv); ("limits", lv)] kwargs;
   exp_range_from_kw x kw') = Raise TypeError.
Proof.
  intros Hrest. destruct (kw_call _ kwargs) as [kw'|e] eqn:Hcall.
  2:{ unfold kw_call in Hcall. case_bool_decide; [done|]. by injection Hcall as <-. }
  apply kw_call_Ok in Hcall as [Hfresh ->].
  apply Forall_cons in Hfresh as [Hm Hfresh]. apply Forall_cons in Hfresh as [Hl _].
  change (kwargs !! "margins" = None) in Hm. change (kwargs !! "limits" = None) in Hl.
  change (foldr _ kwargs _) with (<["margins" := mv]> (<["limits" := lv]> kwargs)).
  unfold rbind, exp_range_from_kw. rewrite bool_decide_eq_false_2; [done|].
  intros Hempty. apply map_choose in Hrest as (k & v & Hk).
  pose proof (kw_rest_lookup ["margins"; "limits"]
    (<["margins" := mv]> (<["limits" := lv]> kwargs)) k) as Hlook.
  rewrite Hempty, lookup_empty in Hlook.
  destruct (decide (k = "margins")) as [->|Hkm]; [congruence|].
  destruct (decide (k = "limits")) as [->|Hkl]; [congruence|].
  rewrite decide_False in Hlook
    by (by intros [?|[?|[]%elem_of_nil]%elem_of_cons]%elem_of_cons).
  rewrite !lookup_insert_ne in Hlook by done. congruence.
Qed.

(** X9: a modifier that [exp_resp_from] does not name is a [TypeError] as
    soon as the response has a frequency info to convert, and goes
    unnoticed in a response without frequency and channel infos. *)
Theorem exp_resp_from_unrecognised_modifier resp kw :
  kw_rest exp_resp_from_params kw ≠ ∅ →
  (availableFrequencyInfo resp ≠ [] → exp_resp_from resp kw = Raise TypeError)
  ∧ (kw !! "resp" = None →
     availableFrequencyInfo resp = [] → availableChannelInfo resp = [] →
     ∃ r, exp_resp_from resp kw = Ok r).
Proof.
  intros Hrest. split.
  - intros Hfreq. unfold exp_resp_from. case_bool_decide; [done|].
    destruct (availableFrequencyInfo resp) as [|x freq]; [done|].
    cbn [rmap]. unfold exp_freq_info_from at 1.
    pose proof (exp_range_from_kw_leftover (maxPsd x)
                  (kw_get kw "psd_margins" PyNone) (kw_get kw "psd_limits" PyNone)
                  _ Hrest) as Hraise.
    destruct (kw_call _ (kw_rest exp_resp_from_params kw)) as [kw'|e]; simpl in *.
    + by rewrite Hraise.
    + by injection Hraise as ->.
  - intros Hresp Hfreq Hchan. unfold exp_resp_from.
    rewrite bool_decide_eq_false_2 by (rewrite Hresp; by intros [? ?]).
    rewrite Hfreq, Hchan. simpl. eauto.
Qed.

Lemma rmap_Raise {A B} (f : A → result B) l e :
  rmap f l = Raise e → ∃ x, x ∈ l ∧ f x = Raise e.
Proof.
  induction l as [|x l IH]; simpl; [done|].
  destruct (f x) as [y|e'] eqn:Hx; simpl.
  - destruct (rmap f l) as [ys|e'']; simpl; [done|].
    intros [= ->]. destruct IH as (x' & Hin & Hx'); [done|].
    exists x'. split; [by right | done].
  - intros [= ->]. exists x. split; [by left | done].
Qed.

(** X10: a message converts exactly when [msg] is not among the modifiers
    and every one of its responses converts; one response that raises
    makes the whole message raise. *)
Theorem exp_msg_from_returns msg kw :
  (∃ m, exp_msg_from msg kw = Ok m) ↔
  kw !! "msg" = None
  ∧ Forall (λ x, ∃ y, exp_resp_from x (exp_msg_from_resp_kw kw) = Ok y)
           (availableSpectrumInquiryResponses msg).
Proof.
  split.
  - intros [m Hm]. split.
    + unfold exp_msg_from in Hm. case_bool_decide as Hk; [done|].
      destruct (kw !! "msg") eqn:E; [|done]. exfalso. apply Hk. eauto.
    + apply exp_msg_from_inv in Hm as (resps & Hall & _).
      induction Hall; constructor; eauto.
  - intros [Hmsg Hall]. unfold exp_msg_from.
    rewrite bool_decide_eq_false_2 by (rewrite Hmsg; by intros [? ?]).
    edestruct (rmap_total
      (λ x, kw' ←? kw_call [("exclude_extensions", kw_get kw "exclude_extensions" (PyBool true))]
                           (kw_rest ["exclude_extensions"] kw);
            exp_resp_from x kw')
      (availableSpectrumInquiryResponses msg)) as [resps ->].
    { intros x Hx. rewrite kw_call_fresh.
      - simpl. by eapply Forall_forall in Hall.
      - repeat constructor. simpl. apply lookup_delete_eq. }
    simpl. eauto.
Qed.

(** ** The driver, again *)

Lemma omap_nil_Forall {A B} (f : A → option B) l :
  omap f l = [] ↔ Forall (λ x, f x = None) l.
Proof.
  induction l as [|x l IH]; simpl; [by split; [constructor|]|].
  destruct (f x) eqn:Hx; simpl.
  - split; [done|]. intros [? _]%Forall_cons. congruence.
  - rewrite IH. split; [by constructor | by intros [_ ?]%Forall_cons].
Qed.

(** The merge keeps the masks of the accumulator's version and no other. *)
Lemma main_merge_filter rest :
  ∀ mask_obj m,
    main_merge mask_obj rest = Ok m →
    expectedSpectrumInquiryResponses m
    = expectedSpectrumInquiryResponses mask_obj
        ++ concat (expectedSpectrumInquiryResponses
                     <$> filter (λ mask, exp_version mask = exp_version mask_obj) rest).
Proof.
  induction rest as [|mask rest IH]; intros mask_obj m; simpl.
  - intros [= <-]. by rewrite app_nil_r.
  - case_bool_decide as Hv.
    + intros Hm. rewrite filter_cons_False by congruence. by apply IH.
    + rewrite filter_cons_True by done.
      destruct (mask_vendorExtensions mask_obj) as [exts|].
      * destruct (mask_vendorExtensions mask) as [more|]; [|done].
        intros Hm. apply IH in Hm. rewrite Hm. simpl. by rewrite app_assoc.
      * intros Hm. apply IH in Hm. rewrite Hm. simpl. by rewrite app_assoc.
Qed.


Lemma str_app_nil t : "" +:+ t = t.
Proof. reflexivity. Qed.

Lemma str_app_cons c s t : String c s +:+ t = String c (s +:+ t).
Proof. reflexivity. Qed.

Lemma str_app_length s t :
  String.length (s +:+ t) = (String.length s + String.length t)%nat.
Proof.
  induction s as [|c s IH]; [done|].
  rewrite str_app_cons. simpl. by rewrite IH.
Qed.

Lemma str_app_inj_r s1 s2 t : s1 +:+ t = s2 +:+ t → s1 = s2.
Proof.
  revert s2. induction s1 as [|c s1 IH]; intros [|c2 s2] Heq; [done|..].
  - apply (f_equal String.length) in Heq.
    rewrite str_app_nil, str_app_cons in Heq. simpl in Heq.
    rewrite str_app_length in Heq. lia.
  - apply (f_equal String.length) in Heq.
    rewrite str_app_nil, str_app_cons in Heq. simpl in Heq.
    rewrite str_app_length in Heq. lia.
  - rewrite !str_app_cons in Heq. injection Heq as -> Heq. f_equal. by apply IH.
Qed.

Section DriverFurther.

Variable mask_valid : ExpectedSpectrumInquiryResponseMessage → bool.

(** X11: a file that is skipped (not a response message, a conversion
    that raises, a mask that does not validate) leaves no trace: the
    outcome is that of the response set without it. *)
Theorem main_process_src_skipped_file cfg src_path is_dir pre src_file post :
  main_convert_file mask_valid cfg src_file = None →
  main_process_src mask_valid cfg src_path is_dir (pre ++ src_file :: post)
  = main_process_src mask_valid cfg src_path is_dir (pre ++ post).
Proof.
  intros Hskip. unfold main_process_src.
  rewrite !omap_app. simpl omap. by rewrite Hskip.
Qed.

(** X12: a source is reported as holding no valid responses exactly when
    every one of its files is skipped. *)
Theorem main_process_src_no_valid cfg src_path is_dir src_files :
  main_process_src mask_valid cfg src_path is_dir src_files = NoValidResponses
  ↔ Forall (λ src_file, main_convert_file mask_valid cfg src_file = None) src_files.
Proof.
  rewrite <- omap_nil_Forall. unfold main_process_src.
  destruct (omap _ src_files) as [|mask_obj [|mask rest]]; [done|..].
  - by destruct (main_mask_file_name _ _ _).
  - destruct (main_merge _ _) as [m|]; [|done].
    by destruct (main_mask_file_name _ _ _).
Qed.

(** X13: a written mask has the version of the first file that was not
    skipped, and its responses are those of the files of that version, in
    the order of the files; files of another version contribute nothing. *)
Theorem main_process_src_merged cfg src_path is_dir src_files mask_file_name m :
  main_process_src mask_valid cfg src_path is_dir src_files
  = MaskWritten mask_file_name m →
  ∃ mask_obj rest,
    omap (main_convert_file mask_valid cfg) src_files = mask_obj :: rest
    ∧ exp_version m = exp_version mask_obj
    ∧ expectedSpectrumInquiryResponses m
      = expectedSpectrumInquiryResponses mask_obj
          ++ concat (expectedSpectrumInquiryResponses
                       <$> filter (λ mask, exp_version mask = exp_version mask_obj) rest).
Proof.
  intros (mask_obj & rest & Hset & Hm & _)%main_process_src_written.
  exists mask_obj, rest. split; [done|]. split.
  - by eapply main_merge_version.
  - by apply main_merge_filter.
Qed.



(** X15: a mask without responses is never written. *)
Theorem main_process_src_written_nonempty cfg src_path is_dir src_files mask_file_name m :
  main_process_src mask_valid cfg src_path is_dir src_files
  = MaskWritten mask_file_name m →
  expectedSpectrumInquiryResponses m ≠ [].
Proof.
  intros (mask_obj & rest & _ & _ & Hname)%main_process_src_written Hnil.
  unfold main_mask_file_name, index in Hname. by rewrite Hnil in Hname.
Qed.

End DriverFurther.

(** X16: every mask file name ends in [_mask.json], and begins with
    [AFCS.] when the first response's request identifier has the form
    REQ-<letters><digits>. *)
Theorem main_mask_file_name_shape src_path is_dir mask_obj mask_file_name :
  main_mask_file_name src_path (main_src_gen_name src_path is_dir) mask_obj
  = Ok mask_file_name →
  ∃ base,
    mask_file_name = base +:+ "_mask.json"
    ∧ ∀ first, expectedSpectrumInquiryResponses mask_obj !! 0%nat = Some first →
               is_Some (wfa_fullmatch (exp_requestId first)) →
               ∃ tail, base = "AFCS." +:+ tail.
Proof.
  unfold main_mask_file_name, index.
  destruct (expectedSpectrumInquiryResponses mask_obj) as [|first rest]; [done|].
  simpl. destruct (wfa_fullmatch (exp_requestId first)) as [[letters digits]|] eqn:Hm.
  - destruct (1 <? S (length rest))%nat; intros [= <-].
    + exists ("AFCS." +:+ replace_char "_" "." (basename src_path)). split.
      * by rewrite str_app_assoc.
      * intros ? [= <-] _. eauto.
    + exists ("AFCS." +:+ letters +:+ "." +:+ digits). split.
      * unfold str_join; simpl app. by rewrite !str_app_assoc.
      * intros ? [= <-] _. eauto.
  - intros [= <-]. unfold main_src_gen_name.
    destruct is_dir; (eexists; split; [reflexivity|]);
      intros ? [= <-] [? Hs]; congruence.
Qed.

(** X17: single responses with distinct request identifiers of the form
    REQ-<letters><digits> never share a mask file name. *)
Theorem main_mask_file_name_single_injective
    src_path1 src_gen_name1 src_path2 src_gen_name2 mask1 mask2 first1 first2 name :
  expectedSpectrumInquiryResponses mask1 = [first1] →
  expectedSpectrumInquiryResponses mask2 = [first2] →
  is_Some (wfa_fullmatch (exp_requestId first1)) →
  is_Some (wfa_fullmatch (exp_requestId first2)) →
  main_mask_file_name src_path1 src_gen_name1 mask1 = Ok name →
  main_mask_file_name src_path2 src_gen_name2 mask2 = Ok name →
  exp_requestId first1 = exp_requestId first2.
Proof.
  intros H1 H2 [[l1 d1] Hm1] [[l2 d2] Hm2].
  unfold main_mask_file_name, index. rewrite H1, H2. simpl. rewrite Hm1, Hm2.
  intros [= <-] [= Heq].
  apply wfa_fullmatch_Some in Hm1 as (Hid1 & Hlen1 & _).
  apply wfa_fullmatch_Some in Hm2 as (Hid2 & Hlen2 & _).
  rewrite Hid1, Hid2.
  unfold str_join in Heq; simpl app in Heq.
  apply str_app_inj_r in Heq.
  destruct l1 as [|a1 [|b1 [|c1 [|? ?]]]]; try discriminate.
  destruct l2 as [|a2 [|b2 [|c2 [|? ?]]]]; try discriminate.
  vm_compute in Heq. by injection Heq as -> -> -> ->.
Qed.

(** ** The prompts *)

Lemma unrecognized_not_in line : line ∉ ["y"; "n"] ↔ unrecognized line.
Proof.
  unfold unrecognized. split.
  - intros Hnin. split; intros ->; apply Hnin; repeat constructor.
  - intros [Hy Hn] [?|[?|[]%elem_of_nil]%elem_of_cons]%elem_of_cons; congruence.
Qed.

(** X18: [_ask_yes_no] answers with the first line that is exactly [y] or
    [n] (yes for [y]), after one reminder for each line before it, and
    leaves the lines after it unread; when no line is [y] or [n], every
    line is answered by a reminder and the input ends. *)
Theorem ask_yes_no_first_answer stdin :
  match _ask_yes_no stdin with
  | Answered answer reminders rest =>
      ∃ before line,
        stdin = before ++ line :: rest
        ∧ Forall unrecognized before
        ∧ length before = reminders
        ∧ (line = "y" ∧ answer = true ∨ line = "n" ∧ answer = false)
  | EndOfInput reminders =>
      Forall unrecognized stdin ∧ length stdin = reminders
  end.
Proof.
  induction stdin as [|user_resp stdin IH]; simpl; [by split|].
  case_bool_decide as Hin.
  - exists [], user_resp. repeat split; [done|].
    apply elem_of_cons in Hin as [->|Hin]; [by left|].
    apply elem_of_cons in Hin as [->|Hin]; [by right|].
    by apply elem_of_nil in Hin.
  - apply unrecognized_not_in in Hin.
    destruct (_ask_yes_no stdin) as [answer reminders rest|reminders]; simpl.
    + destruct IH as (before & line & -> & Hbefore & <- & Hline).
      exists (user_resp :: before), line. repeat split; [by constructor | done].
    + destruct IH as [Hall <-]. split; [by constructor | done].
Qed.

Lemma ask_yes_no_Answered stdin answer reminders rest :
  _ask_yes_no stdin = Answered answer reminders rest →
  ∃ before line,
    stdin = before ++ line :: rest ∧ Forall unrecognized before
    ∧ (line = "y" ∧ answer = true ∨ line = "n" ∧ answer = false).
Proof.
  revert answer reminders rest.
  induction stdin as [|user_resp stdin IH]; intros answer reminders rest; simpl; [done|].
  case_bool_decide as Hin.
  - intros [= <- <- <-]. exists [], user_resp. repeat split; [done|].
    apply elem_of_cons in Hin as [->|Hin]; [by left|].
    apply elem_of_cons in Hin as [->|Hin]; [by right|].
    by apply elem_of_nil in Hin.
  - apply unrecognized_not_in in Hin.
    destruct (_ask_yes_no stdin) as [answer' reminders' rest'|]; simpl; [|done].
    intros [= <- <- <-].
    destruct (IH _ _ _ eq_refl) as (before & line & -> & Hbefore & Hline).
    exists (user_resp :: before), line. repeat split; [by constructor | done].
Qed.

(** X19: with [-y] or [-q] nothing is asked.  Without them, a mask is
    saved over an existing file, or into a directory that has to be
    made, only after the answer [y]; the source is skipped only when the
    output file exists and the answer is [n]; and the run exits only when
    the output directory is missing. *)
Theorem main_prompts_consent assume_yes quiet output_exists dir_exists stdin :
  (assume_yes || quiet = true →
   main_prompts assume_yes quiet output_exists dir_exists stdin = Save stdin)
  ∧ (∀ rest,
       main_prompts assume_yes quiet output_exists dir_exists stdin = Save rest →
       assume_yes || quiet = false →
       output_exists = true ∨ dir_exists = false →
       ∃ before after, stdin = before ++ "y" :: after ∧ Forall unrecognized before)
  ∧ (∀ rest,
       main_prompts assume_yes quiet output_exists dir_exists stdin = SkipSource rest →
       assume_yes || quiet = false ∧ output_exists = true
       ∧ ∃ before, stdin = before ++ "n" :: rest ∧ Forall unrecognized before)
  ∧ (∀ rest,
       main_prompts assume_yes quiet output_exists dir_exists stdin = Exit1 rest →
       assume_yes || quiet = false ∧ dir_exists = false).
Proof.
  unfold main_prompts. repeat split.
  - by intros ->.
  - intros rest Hsave Hflags Hneed. rewrite Hflags in Hsave. simpl in Hsave.
    destruct output_exists.
    + destruct (_ask_yes_no stdin) as [[] reminders rest'|] eqn:Hask; try done.
      apply ask_yes_no_Answered in Hask
        as (before & line & -> & Hbefore & [[-> _]|[_ ?]]); [|done].
      by exists before, rest'.
    + destruct Hneed as [?| ->]; [done|]. simpl in Hsave.
      destruct (_ask_yes_no stdin) as [[] reminders rest'|] eqn:Hask; try done.
      apply ask_yes_no_Answered in Hask
        as (before & line & -> & Hbefore & [[-> _]|[_ ?]]); [|done].
      by exists before, rest'.
  - destruct (assume_yes || quiet); simpl in *; [done|reflexivity].
  - destruct (assume_yes || quiet); simpl in *; [done|].
    destruct output_exists; [done|].
    destruct dir_exists; simpl in *; [done|].
    by destruct (_ask_yes_no stdin) as [[] ? ?|].
  - destruct (assume_yes || quiet); simpl in *; [done|].
    destruct output_exists.
    + destruct (_ask_yes_no stdin) as [[] reminders rest'|] eqn:Hask.
      * destruct dir_exists; simpl in *; [done|].
        by destruct (_ask_yes_no rest') as [[] ? ?|].
      * injection H as <-.
        apply ask_yes_no_Answered in Hask
          as (before & line & -> & Hbefore & [[_ ?]|[-> _]]); [done|].
        by exists before.
      * done.
    + destruct dir_exists; simpl in *; [done|].
      by destruct (_ask_yes_no stdin) as [[] ? ?|].
  - destruct (assume_yes || quiet); simpl in *; [done|reflexivity].
  - destruct (assume_yes || quiet); simpl in *; [done|].
    destruct dir_exists; [|done]. simpl in *.
    destruct output_exists; [|done].
    by destruct (_ask_yes_no stdin) as [[] ? ?|].
Qed.

(** ** Instances of the further properties *)





Lemma exp_range_from_wider_margins_witness :
  let margins := Some (<["upper" := Fin (Qc_of_Z 1)]> (<["lower" := Fin (Qc_of_Z 2)]> ∅)) in
  let margins' := Some (<["upper" := Fin (Qc_of_Z 3)]> (<["lower" := Fin (Qc_of_Z 4)]> ∅)) in
  ∃ r r', exp_range_from (Fin (Qc_of_Z 40)) margins None = Ok r
          ∧ exp_range_from (Fin (Qc_of_Z 40)) margins' None = Ok r'
          ∧ nominal r' = nominal r
          ∧ num_le (upperBound r) (upperBound r')
          ∧ num_le (lowerBound r') (lowerBound r).
Proof.
  intros margins margins'.
  destruct (exp_range_from (Fin (Qc_of_Z 40)) margins None) as [r|e] eqn:Hr;
    [|vm_compute in Hr; discriminate].
  destruct (exp_range_from (Fin (Qc_of_Z 40)) margins' None) as [r'|e] eqn:Hr';
    [|vm_compute in Hr'; discriminate].
  exists r, r'. split; [reflexivity|]. split; [reflexivity|].
  apply (exp_range_from_wider_margins (Fin (Qc_of_Z 40)) margins margins' None r r');
    [by_compute | by_compute | exact Hr | exact Hr'].
Defined.

Lemma exp_resp_from_frequency_info_witness :
  ∃ r, exp_resp_from (sample_resp "A1" None) ∅ = Ok r
       ∧ Forall2 (λ x y,
                    exp_frequencyRange y = frequencyRange x
                    ∧ ∃ margins limits,
                        as_dict (kw_get ∅ "psd_margins" PyNone) = Ok margins
                        ∧ as_dict (kw_get ∅ "psd_limits" PyNone) = Ok limits
                        ∧ exp_range_from (maxPsd x) margins limits = Ok (exp_maxPsd y))
                 (availableFrequencyInfo (sample_resp "A1" None))
                 (expectedFrequencyInfo r).
Proof.
  destruct (exp_resp_from (sample_resp "A1" None) ∅) as [r|e] eqn:Hr;
    [|vm_compute in Hr; discriminate].
  exists r. split; [reflexivity|].
  exact (exp_resp_from_frequency_info _ _ r Hr).
Defined.

Lemma exp_resp_from_channel_info_witness :
  ∃ r, exp_resp_from (sample_resp "A1" None) ∅ = Ok r
       ∧ Forall2 (λ x y,
                    exp_globalOperatingClass y = globalOperatingClass x
                    ∧ exp_channelCfi y = channelCfi x
                    ∧ Forall2 (λ v range,
                                 ∃ margins limits,
                                   as_dict (kw_get ∅ "eirp_margins" PyNone) = Ok margins
                                   ∧ as_dict (kw_get ∅ "eirp_limits" PyNone) = Ok limits
                                   ∧ exp_range_from v margins limits = Ok range)
                              (maxEirp x) (exp_maxEirp y))
                 (availableChannelInfo (sample_resp "A1" None))
                 (expectedChannelInfo r).
Proof.
  destruct (exp_resp_from (sample_resp "A1" None) ∅) as [r|e] eqn:Hr;
    [|vm_compute in Hr; discriminate].
  exists r. split; [reflexivity|].
  exact (exp_resp_from_channel_info _ _ r Hr).
Defined.

Lemma exp_msg_from_envelope_witness :
  ∃ m, exp_msg_from (sample_msg "1.4" "A1" None) ∅ = Ok m
       ∧ exp_version m = "1.4"
       ∧ Forall2 (λ x y, exp_requestId y = requestId x ∧ exp_rulesetId y = rulesetId x)
                 [sample_resp "A1" None] (expectedSpectrumInquiryResponses m).
Proof.
  destruct (exp_msg_from (sample_msg "1.4" "A1" None) ∅) as [m|e] eqn:Hm;
    [|vm_compute in Hm; discriminate].
  exists m. split; [reflexivity|].
  exact (exp_msg_from_envelope _ _ m Hm).
Defined.

Lemma exp_resp_from_unrecognised_modifier_witness :
  exp_resp_from (sample_resp "A1" None) (<["foo" := PyNone]> ∅) = Raise TypeError
  ∧ ∃ r, exp_resp_from failed_resp (<["foo" := PyNone]> ∅) = Ok r.
Proof.
  assert (kw_rest exp_resp_from_params (<["foo" := PyNone]> ∅) ≠ ∅) as Hrest.
  { intros Hempty. apply (f_equal (λ m : gmap string pyval, m !! "foo")) in Hempty.
    vm_compute in Hempty. discriminate. }
  split.
  - apply (exp_resp_from_unrecognised_modifier (sample_resp "A1" None) _ Hrest).
    discriminate.
  - apply (exp_resp_from_unrecognised_modifier failed_resp _ Hrest); reflexivity.
Defined.

Lemma main_process_src_skipped_file_witness :
  main_process_src (λ _, true) ∅ "set_a" true
    ([Some (sample_msg "1.4" "A1" None)] ++ None :: [Some (sample_msg "1.4" "C1" None)])
  = main_process_src (λ _, true) ∅ "set_a" true
      ([Some (sample_msg "1.4" "A1" None)] ++ [Some (sample_msg "1.4" "C1" None)]).
Proof. apply main_process_src_skipped_file. reflexivity. Defined.

Lemma main_process_src_merged_witness :
  ∃ mask_file_name m mask_obj rest,
    main_process_src (λ _, true) ∅ "set_a" true
      [Some (sample_msg "1.4" "A1" None); Some (sample_msg "1.3" "B1" None);
       Some (sample_msg "1.4" "C1" None)]
    = MaskWritten mask_file_name m
    ∧ omap (main_convert_file (λ _, true) ∅)
        [Some (sample_msg "1.4" "A1" None); Some (sample_msg "1.3" "B1" None);
         Some (sample_msg "1.4" "C1" None)]
      = mask_obj :: rest
    ∧ exp_version m = exp_version mask_obj
    ∧ expectedSpectrumInquiryResponses m
      = expectedSpectrumInquiryResponses mask_obj
          ++ concat (expectedSpectrumInquiryResponses
                       <$> filter (λ mask, exp_version mask = exp_version mask_obj) rest).
Proof.
  destruct (main_process_src (λ _, true) ∅ "set_a" true
      [Some (sample_msg "1.4" "A1" None); Some (sample_msg "1.3" "B1" None);
       Some (sample_msg "1.4" "C1" None)]) as [| e | mask_file_name m] eqn:Hw;
    [vm_compute in Hw; discriminate | vm_compute in Hw; discriminate |].
  destruct (main_process_src_merged _ _ _ _ _ _ _ Hw) as (mask_obj & rest & Hrest).
  exists mask_file_name, m, mask_obj, rest. split; [reflexivity | exact Hrest].
Defined.


Lemma main_process_src_written_nonempty_witness :
  ∃ mask_file_name m,
    main_process_src (λ _, true) ∅ "a1.json" false [Some (sample_msg "1.4" "A1" None)]
    = MaskWritten mask_file_name m
    ∧ expectedSpectrumInquiryResponses m ≠ [].
Proof.
  destruct (main_process_src (λ _, true) ∅ "a1.json" false
              [Some (sample_msg "1.4" "A1" None)]) as [| e | mask_file_name m] eqn:Hw;
    [vm_compute in Hw; discriminate | vm_compute in Hw; discriminate |].
  exists mask_file_name, m. split; [reflexivity|].
  exact (main_process_src_written_nonempty _ _ _ _ _ _ _ Hw).
Defined.

Lemma main_mask_file_name_shape_witness :
  ∃ mask_file_name base,
    main_mask_file_name "cert_vectors" (main_src_gen_name "cert_vectors" true)
      (sample_mask "1.4" ["REQ-ABC123"; "REQ-ABC124"])
    = Ok mask_file_name
    ∧ mask_file_name = base +:+ "_mask.json"
    ∧ ∃ tail, base = "AFCS." +:+ tail.
Proof.
  destruct (main_mask_file_name "cert_vectors" (main_src_gen_name "cert_vectors" true)
              (sample_mask "1.4" ["REQ-ABC123"; "REQ-ABC124"]))
    as [mask_file_name|e] eqn:Hn; [|vm_compute in Hn; discriminate].
  destruct (main_mask_file_name_shape _ _ _ _ Hn) as (base & Hbase & Hafcs).
  exists mask_file_name, base. split; [reflexivity|]. split; [exact Hbase|].
  apply (Hafcs (sample_exp_resp "REQ-ABC123")); [reflexivity|].
  by exists ("ABC", "123").
Defined.

Lemma main_mask_file_name_single_injective_witness :
  main_mask_file_name "a/REQ-ABC123.json" "REQ-ABC123_mask.json"
    (sample_mask "1.4" ["REQ-ABC123"])
  = main_mask_file_name "b/copy.json" "copy_mask.json"
      (sample_mask "1.3" ["REQ-ABC123"])
  ∧ exp_requestId (sample_exp_resp "REQ-ABC123") = "REQ-ABC123".
Proof.
  split; [reflexivity|].
  apply (main_mask_file_name_single_injective
           "a/REQ-ABC123.json" "REQ-ABC123_mask.json" "b/copy.json" "copy_mask.json"
           (sample_mask "1.4" ["REQ-ABC123"]) (sample_mask "1.3" ["REQ-ABC123"])
           (sample_exp_resp "REQ-ABC123") (sample_exp_resp "REQ-ABC123")
           "AFCS.ABC.123_mask.json");
    try reflexivity; by exists ("ABC", "123").
Defined.

(** ** When the merge raises *)

(** X20: the merge raises, with a [TypeError], exactly when among the first
    mask and the later masks of its version one that carries vendor
    extensions comes before one that carries none. *)
Theorem main_merge_raises rest :
  ∀ mask_obj e,
    main_merge mask_obj rest = Raise e ↔
    e = TypeError
    ∧ ∃ i j a b,
        (i < j)%nat
        ∧ (mask_obj :: filter (λ mask, exp_version mask = exp_version mask_obj) rest) !! i
          = Some a
        ∧ (mask_obj :: filter (λ mask, exp_version mask = exp_version mask_obj) rest) !! j
          = Some b
        ∧ is_Some (mask_vendorExtensions a)
        ∧ mask_vendorExtensions b = None.
Proof.
  induction rest as [|mask rest IH]; intros mask_obj e.
  - simpl. split; [done|].
    intros (_ & i & j & a & b & Hij & Hi & Hj & _).
    destruct j as [|j]; [lia|]. by rewrite filter_nil in Hj.
  - simpl main_merge. case_bool_decide as Hv.
    + rewrite filter_cons_False by congruence. apply IH.
    + rewrite filter_cons_True by done.
      set (same := filter (λ mask', exp_version mask' = exp_version mask_obj) rest).
      destruct (mask_vendorExtensions mask_obj) as [exts|] eqn:Hacc.
      * destruct (mask_vendorExtensions mask) as [more|] eqn:Hnext.
        -- rewrite IH. simpl. fold same. split.
           ++ intros (-> & i & j & a & b & Hij & Hi & Hj & Ha & Hb). split; [done|].
              destruct i as [|i].
              ** exists 0%nat, (S j), mask_obj, b. rewrite Hacc.
                 destruct j as [|j]; [lia|]. repeat split; eauto with lia.
              ** exists (S (S i)), (S j), a, b.
                 destruct j as [|j]; [lia|]. repeat split; eauto with lia.
           ++ intros (-> & i & j & a & b & Hij & Hi & Hj & Ha & Hb). split; [done|].
              destruct j as [|[|j]]; [lia | |].
              { injection Hj as <-. congruence. }
              destruct i as [|[|i]].
              ** eexists 0%nat, (S j), _, b. simpl. repeat split; eauto with lia.
              ** eexists 0%nat, (S j), _, b. simpl. repeat split; eauto with lia.
              ** exists (S i), (S j), a, b. repeat split; eauto with lia.
        -- split; [|by intros [-> _]]. intros [= <-]. split; [done|].
           exists 0%nat, 1%nat, mask_obj, mask. rewrite Hacc.
           repeat split; eauto with lia.
      * rewrite IH. simpl. fold same. split.
        -- intros (-> & i & j & a & b & Hij & Hi & Hj & Ha & Hb). split; [done|].
           destruct j as [|j]; [lia|].
           destruct i as [|i].
           ** injection Hi as <-. simpl in Ha.
              exists 1%nat, (S (S j)), mask, b. repeat split; eauto with lia.
           ** exists (S (S i)), (S (S j)), a, b. repeat split; eauto with lia.
        -- intros (-> & i & j & a & b & Hij & Hi & Hj & Ha & Hb). split; [done|].
           destruct i as [|[|i]].
           ** injection Hi as <-. rewrite Hacc in Ha. by destruct Ha.
           ** injection Hi as <-. destruct j as [|[|j]]; [lia | lia |].
              eexists 0%nat, (S j), _, b. simpl. repeat split; eauto with lia.
           ** destruct j as [|[|j]]; [lia | lia |].
              exists (S i), (S j), a, b. repeat split; eauto with lia.
Qed.
